(** * GitCore email handler: tools/email-handler/src/main.py

    A shallow embedding of the handler that polls a mailbox for GitHub
    "Run failed" notifications, extracts repository and workflow from the
    subject line with a regular expression, asks the [gh] command line tool
    for the state of the workflow and then archives the mail or marks it
    read.

    Python strings are sequences of code points; external services (the
    Gmail API, the [gh] subprocess, the credential files) answer through an
    environment that may depend on the whole history of calls; logging is
    write-only output. *)

From Stdlib Require Import ZArith NArith Ascii String List.
From stdpp Require Import base option list gmap sets strings.

Set Warnings "-register-all,-clear-no-such-hyp".
Set Default Proof Using "Type".

(** ** Python strings *)

(** A Python [str] is a sequence of Unicode code points. *)
Definition char := N.
Definition pystr := list char.

(** An ASCII literal of the source, as a [pystr]. *)
Definition lit (s : string) : pystr := map N_of_ascii (list_ascii_of_string s).

Definition chr (a : ascii) : char := N_of_ascii a.

Definition in_range (lo hi c : char) : bool := ((lo <=? c) && (c <=? hi))%N.

(** The double quote character. *)
Definition dquote : char := 34%N.

(** Letters and digits of the ASCII range. *)
Definition ascii_alnum (c : char) : bool :=
  in_range (chr "0") (chr "9") c || in_range (chr "A") (chr "Z") c
  || in_range (chr "a") (chr "z") c.

(** ** Regular expressions: the fragment of [re] the handler uses *)

(** An item of a bracketed set: a literal character or the class [\w]. *)
Inductive cset_item :=
| CI_char (c : char)
| CI_word.

(** What consumes exactly one character. *)
Inductive atom :=
| A_char (c : char)                  (* a literal, escaped or not *)
| A_any                              (* [.] without DOTALL *)
| A_set (items : list cset_item).    (* [[...]] *)

Inductive regex :=
| R_eps
| R_atom (a : atom)
| R_plus (a : atom) (greedy : bool)  (* [a+] when greedy, [a+?] otherwise *)
| R_group (i : nat) (r : regex)      (* the i-th capturing group *)
| R_seq (r1 r2 : regex).

(** A run of literal characters. *)
Definition re_lit (s : pystr) : regex :=
  foldr (fun c r => R_seq (R_atom (A_char c)) r) R_eps s.

Definition word_or_hyphen : atom := A_set [CI_word; CI_char (chr "-")].

(** [r'\[([\w-]+/[\w-]+)\] Run failed: (.+?) -'] *)
Definition failure_pattern : regex :=
  R_seq (re_lit (lit "["))
    (R_seq (R_group 1 (R_seq (R_plus word_or_hyphen true)
                         (R_seq (re_lit (lit "/")) (R_plus word_or_hyphen true))))
       (R_seq (re_lit (lit "] Run failed: "))
          (R_seq (R_group 2 (R_plus A_any false))
             (re_lit (lit " -"))))).

(** The groups of a match, the most recently closed first. *)
Definition captures := list (nat * pystr).

Fixpoint group (m : captures) (i : nat) : pystr :=
  match m with
  | [] => []
  | (j, s) :: m' => if Nat.eqb i j then s else group m' i
  end.

Section Backtracking.
Context {A : Type}.

(** [a+]: take as many characters as possible, give them back one at a
    time while the rest of the pattern fails. *)
Fixpoint plus_greedy (p : char -> bool) (s : pystr) (k : pystr -> option A)
  : option A :=
  match s with
  | [] => None
  | c :: s' =>
      if p c then
        match plus_greedy p s' k with
        | Some r => Some r
        | None => k s'
        end
      else None
  end.

(** [a+?]: take one character, and one more each time the rest of the
    pattern fails. *)
Fixpoint plus_lazy (p : char -> bool) (s : pystr) (k : pystr -> option A)
  : option A :=
  match s with
  | [] => None
  | c :: s' =>
      if p c then
        match k s' with
        | Some r => Some r
        | None => plus_lazy p s' k
        end
      else None
  end.
End Backtracking.

(** ** Data of the external services *)

(** The exceptions the handler tells apart: [except HttpError] catches the
    first only, [except Exception] both. *)
Inductive exn :=
| HttpError (status : Z)
| OtherException (cls : pystr).

Definition is_HttpError (e : exn) : bool :=
  match e with HttpError _ => true | OtherException _ => false end.

Definition is_Exception (e : exn) : bool := true.

(** Gmail API resources, with the fields the handler reads; a field the
    response leaves out is [None]. *)
Record Header := { h_name : pystr; h_value : pystr }.
Record Payload := { headers : option (list Header) }.
Record MessageResource := { snippet : option pystr; payload : option Payload }.
Record MessageRef := { id : pystr }.
Record ListResponse := { messages : option (list MessageRef) }.

(** The body of a [modify] request. *)
Record ModifyBody := { addLabelIds : list pystr; removeLabelIds : list pystr }.

(** [subprocess.CompletedProcess] with [capture_output=True, text=True]. *)
Record CompletedProcess := { returncode : Z; stdout : pystr; stderr : pystr }.

(** [google.oauth2.credentials.Credentials], as far as the handler looks. *)
Record Credentials :=
  { valid : bool; expired : bool; refresh_token : option pystr }.

(** The handle [build('gmail', 'v1', credentials=creds)] returns. *)
Record Service := { svc_credentials : Credentials }.

Inductive path := TOKEN_FILE | CREDENTIALS_FILE.

(** Every interaction with the outside, in the order it happens. *)
Inductive Call :=
| CallPathExists (p : path)
| CallLoadToken
| CallBuild (c : Credentials)
| CallRefresh (c : Credentials)
| CallWriteToken (c : Credentials)
| CallOAuthFlow
| CallList (q : pystr)
| CallGet (msg_id : pystr)
| CallModify (msg_id : pystr) (body : ModifyBody)
| CallSubprocess (argv : list pystr).

(** Values [json.loads] can return. *)
Inductive pyfloat :=
| F_zero (neg : bool)
| F_finite (neg : bool) (m : positive) (e : Z)
| F_inf (neg : bool)
| F_nan.

Inductive pyvalue :=
| PNone
| PBool (b : bool)
| PInt (z : Z)
| PFloat (f : pyfloat)
| PStr (s : pystr)
| PList (l : list pyvalue)
| PDict (d : gmap pystr pyvalue).

(** ** Log records *)

Inductive Level := INFO | WARNING | ERROR.

(** One constructor for each logging call of the source, with the values
    its message interpolates. *)
Inductive LogMsg :=
| Msg_using_saved_token
| Msg_token_connect_error (e : exn)
| Msg_token_invalid
| Msg_refreshing_token
| Msg_refresh_failed (e : exn)
| Msg_oauth_flow_start
| Msg_auth_ok
| Msg_credentials_error (e : exn)
| Msg_no_credentials
| Msg_instructions (line : nat)
| Msg_detected (repo workflow : pystr)
| Msg_no_new_failures
| Msg_found (count : nat)
| Msg_processing (subject : pystr)
| Msg_already_passing (workflow : pystr)
| Msg_action_required (repo : pystr)
| Msg_no_structured_data
| Msg_process_error (e : exn)
| Msg_marked_read (msg_id : pystr)
| Msg_mark_read_error (e : exn)
| Msg_archived (msg_id : pystr)
| Msg_archive_error (e : exn)
| Msg_status_error (e : exn)
| Msg_starting (max_emails : Z)
| Msg_dry_run.

Definition LogRecord : Type := Level * LogMsg.

(** ** The world outside the process *)

(** A message as the mailbox stores it. *)
Record StoredMessage := { labelIds : gset pystr; resource : MessageResource }.

Record World := { mailbox : gmap pystr StoredMessage; trace : list Call }.

(** How the outside answers, given the calls made so far. *)
Record Env := {
  env_path_exists : list Call -> path -> bool;
  env_load_token : list Call -> exn + Credentials;
  env_build : list Call -> Credentials -> exn + Service;
  env_refresh : list Call -> Credentials -> exn + Credentials;
  env_write_token : list Call -> Credentials -> option exn;
  env_oauth_flow : list Call -> exn + Credentials;
  env_list : list Call -> pystr -> exn + ListResponse;
  env_get_fault : list Call -> pystr -> option exn;
  env_modify_fault : list Call -> pystr -> ModifyBody -> option exn;
  env_subprocess : list Call -> list pystr -> exn + CompletedProcess
}.

Definition record_call (c : Call) (w : World) : World :=
  {| mailbox := mailbox w; trace := trace w ++ [c] |}.

(** Modelled from the spec: the effect of the mailbox's label mutation, which
    is the Gmail service and not part of the repository ("archive removes the
    inbox label; mark-read removes the unread label"): the labels to remove
    leave the label set, the labels to add join it, nothing else changes. *)
Definition modify_labels (body : ModifyBody) (m : StoredMessage) : StoredMessage :=
  {| labelIds := (labelIds m ∖ list_to_set (removeLabelIds body))
                   ∪ list_to_set (addLabelIds body);
     resource := resource m |}.

(** ** The monad of the handler: exceptions, the world, log output *)

Definition M (A : Type) : Type := World -> (exn + A) * World * list LogRecord.

Definition ret {A} (a : A) : M A := fun w => (inr a, w, []).

Definition bind {A B} (m : M A) (f : A -> M B) : M B :=
  fun w =>
    match m w with
    | (inl e, w1, l1) => (inl e, w1, l1)
    | (inr a, w1, l1) => let '(r, w2, l2) := f a w1 in (r, w2, l1 ++ l2)
    end.

Definition raise {A} (e : exn) : M A := fun w => (inl e, w, []).

(** [try: m  except <class> as e: h e] *)
Definition try_except {A} (m : M A) (catches : exn -> bool) (h : exn -> M A) : M A :=
  fun w =>
    match m w with
    | (inl e, w1, l1) =>
        if catches e then let '(r, w2, l2) := h e w1 in (r, w2, l1 ++ l2)
        else (inl e, w1, l1)
    | (inr a, w1, l1) => (inr a, w1, l1)
    end.

Definition logging (lvl : Level) (msg : LogMsg) : M unit :=
  fun w => (inr tt, w, [(lvl, msg)]).

(** An external call: it is recorded, then it returns or raises. *)
Definition external {A} (c : Call) (answer : World -> exn + A) : M A :=
  fun w => (answer w, record_call c w, []).

#[export] Instance M_ret : MRet M := @ret.
#[export] Instance M_bind : MBind M := fun A B f m => bind m f.

Fixpoint for_each {A} (l : list A) (body : A -> M unit) : M unit :=
  match l with
  | [] => ret tt
  | x :: l' => body x;; for_each l' body
  end.

(** ** Python values: what [check_workflow_status] does with parsed JSON *)

Definition TypeError : exn := OtherException (lit "TypeError").
Definition KeyError : exn := OtherException (lit "KeyError").
Definition IndexError : exn := OtherException (lit "IndexError").
Definition AttributeError : exn := OtherException (lit "AttributeError").

(** [bool(v)] *)
Definition truthy (v : pyvalue) : bool :=
  match v with
  | PNone => false
  | PBool b => b
  | PInt z => negb (z =? 0)%Z
  | PFloat (F_zero _) => false
  | PFloat _ => true
  | PStr s => negb (bool_decide (s = []))
  | PList l => negb (bool_decide (l = []))
  | PDict d => negb (bool_decide (d = ∅))
  end.

(** [len(v)] *)
Definition py_len (v : pyvalue) : exn + Z :=
  match v with
  | PStr s => inr (Z.of_nat (length s))
  | PList l => inr (Z.of_nat (length l))
  | PDict d => inr (Z.of_nat (size d))
  | _ => inl TypeError
  end.

(** [v[0]]; the keys of a parsed JSON object are strings, never [0]. *)
Definition py_item0 (v : pyvalue) : exn + pyvalue :=
  match v with
  | PList (x :: _) => inr x
  | PList [] => inl IndexError
  | PStr (c :: _) => inr (PStr [c])
  | PStr [] => inl IndexError
  | PDict _ => inl KeyError
  | _ => inl TypeError
  end.

(** [v.get(key)] *)
Definition py_get (v : pyvalue) (key : pystr) : exn + pyvalue :=
  match v with
  | PDict d => inr (default PNone (d !! key))
  | _ => inl AttributeError
  end.

(** [v == s] for a string [s] *)
Definition py_eq_str (v : pyvalue) (s : pystr) : bool :=
  match v with
  | PStr s' => bool_decide (s' = s)
  | _ => false
  end.

Definition lift {A} (r : exn + A) : M A := fun w => (r, w, []).

(** The dict [parse_github_email] returns. *)
Record IssueData :=
  { i_type : pystr; i_repo : pystr; i_workflow : pystr; i_snippet : pystr }.

Record Args := { max_emails : Z; dry_run : bool }.

(** ** The handler *)

Section Handler.

(** [str.isalnum] on the code points from 128 on: the Unicode database of the
    Python runtime. *)
Variable unicode_isalnum : char -> bool.

(** [json.loads]: the parsed value, or the exception it raises. *)
Variable json_loads : pystr -> exn + pyvalue.

Variable env : Env.

(** [\w] on a [str] pattern: alphanumeric or underscore. *)
Definition is_word (c : char) : bool :=
  (c =? chr "_")%N
  || (if (c <? 128)%N then ascii_alnum c else unicode_isalnum c).

Definition item_matches (i : cset_item) (c : char) : bool :=
  match i with
  | CI_char c' => (c =? c')%N
  | CI_word => is_word c
  end.

Definition atom_matches (a : atom) (c : char) : bool :=
  match a with
  | A_char c' => (c =? c')%N
  | A_any => negb (c =? 10)%N
  | A_set items => existsb (fun i => item_matches i c) items
  end.

(** Backtracking match of [r] at the start of [s], continuing with [k] on
    what is left of the text. *)
Fixpoint rmatch {A} (r : regex) (s : pystr) (caps : captures)
    (k : pystr -> captures -> option A) : option A :=
  match r with
  | R_eps => k s caps
  | R_atom a =>
      match s with
      | c :: s' => if atom_matches a c then k s' caps else None
      | [] => None
      end
  | R_plus a greedy =>
      (if greedy then plus_greedy else plus_lazy)
        (atom_matches a) s (fun s' => k s' caps)
  | R_group i r1 =>
      rmatch r1 s caps
        (fun s' caps' => k s' ((i, take (length s - length s') s) :: caps'))
  | R_seq r1 r2 => rmatch r1 s caps (fun s' caps' => rmatch r2 s' caps' k)
  end.

Definition re_match (r : regex) (s : pystr) : option captures :=
  rmatch r s [] (fun _ caps => Some caps).

(** [re.search]: the match at the leftmost position that has one. *)
Fixpoint re_search (r : regex) (s : pystr) : option captures :=
  match re_match r s with
  | Some m => Some m
  | None =>
      match s with
      | [] => None
      | _ :: s' => re_search r s'
      end
  end.

Definition parse_github_email (snippet body : pystr) : M (option IssueData) :=
  let match_ := re_search failure_pattern snippet in
  match match_ with
  | Some m =>
      let repo := group m 1 in
      let workflow := group m 2 in
      logging INFO (Msg_detected repo workflow);;
      mret (Some {| i_type := lit "github_action_failure";
                    i_repo := repo;
                    i_workflow := workflow;
                    i_snippet := snippet |})
  | None => mret None
  end.

(** *** The Gmail service *)

Definition api_list (q : pystr) : M ListResponse :=
  external (CallList q) (fun w => env_list env (trace w) q).

(** Modelled from the spec: the mailbox service, which is not part of the
    repository. A request fails when the environment says so, or with status
    404 when the mailbox has no such message; otherwise [get] returns the
    stored resource. *)
Definition api_get (msg_id : pystr) : M MessageResource :=
  external (CallGet msg_id)
    (fun w =>
       match env_get_fault env (trace w) msg_id with
       | Some e => inl e
       | None =>
           match mailbox w !! msg_id with
           | Some m => inr (resource m)
           | None => inl (HttpError 404)
           end
       end).

(** Modelled from the spec: the mailbox service, which is not part of the
    repository. A [modify] request that does not fail applies
    [modify_labels] to the message; one that fails leaves the mailbox as it
    is. *)
Definition api_modify (msg_id : pystr) (body : ModifyBody) : M unit :=
  fun w =>
    let w' := record_call (CallModify msg_id body) w in
    match env_modify_fault env (trace w) msg_id body with
    | Some e => (inl e, w', [])
    | None =>
        match mailbox w !! msg_id with
        | Some m =>
            (inr tt,
             {| mailbox := <[msg_id := modify_labels body m]> (mailbox w);
                trace := trace w' |}, [])
        | None => (inl (HttpError 404), w', [])
        end
    end.

Definition mark_as_read (service : Service) (msg_id : pystr) : M unit :=
  try_except
    (api_modify msg_id {| addLabelIds := []; removeLabelIds := [lit "UNREAD"] |};;
     logging INFO (Msg_marked_read msg_id))
    is_HttpError
    (fun error => logging ERROR (Msg_mark_read_error error)).

Definition archive_message (service : Service) (msg_id : pystr) : M unit :=
  try_except
    (api_modify msg_id {| addLabelIds := []; removeLabelIds := [lit "INBOX"] |};;
     logging INFO (Msg_archived msg_id))
    is_HttpError
    (fun error => logging ERROR (Msg_archive_error error)).

(** *** The status check *)

Definition gh_argv (repo workflow_name : pystr) : list pystr :=
  [lit "gh"; lit "run"; lit "list"; lit "--repo"; repo;
   lit "--workflow"; workflow_name; lit "--limit"; lit "1";
   lit "--json"; lit "conclusion"].

Definition subprocess_run (argv : list pystr) : M CompletedProcess :=
  external (CallSubprocess argv) (fun w => env_subprocess env (trace w) argv).

Definition check_workflow_status (repo workflow_name : pystr) : M bool :=
  try_except
    (result ← subprocess_run (gh_argv repo workflow_name);
     if (returncode result =? 0)%Z then
       runs ← lift (json_loads (stdout result));
       nonempty ← (if truthy runs
                   then n ← lift (py_len runs); mret (0 <? n)%Z
                   else mret false);
       if nonempty : bool then
         first ← lift (py_item0 runs);
         conclusion ← lift (py_get first (lit "conclusion"));
         mret (py_eq_str conclusion (lit "success"))
       else mret false
     else mret false)
    is_Exception
    (fun e => logging ERROR (Msg_status_error e);; mret false).

(** *** The processing loop *)

(** ['from:notifications@github.com is:unread "Run failed"'] *)
Definition query : pystr :=
  lit "from:notifications@github.com is:unread "
  ++ [dquote] ++ lit "Run failed" ++ [dquote].

(** [next((h['value'] for h in headers if h['name'] == name), None)] *)
Fixpoint first_header_value (name : pystr) (hs : list Header) : option pystr :=
  match hs with
  | [] => None
  | h :: hs' =>
      if bool_decide (h_name h = name) then Some (h_value h)
      else first_header_value name hs'
  end.

(** The body of the [for] loop. *)
Definition process_message (service : Service) (message : MessageRef) : M unit :=
  msg ← api_get (id message);
  let snippet := default [] (snippet msg) in
  let payload := default {| headers := None |} (payload msg) in
  let headers := default [] (headers payload) in
  let subject :=
    default (lit "Sin Asunto") (first_header_value (lit "Subject") headers) in
  logging INFO (Msg_processing subject);;
  issue_data ← parse_github_email (subject ++ lit " " ++ snippet) [];
  match issue_data with
  | Some d =>
      is_fixed ← check_workflow_status (i_repo d) (i_workflow d);
      if is_fixed : bool then
        logging INFO (Msg_already_passing (i_workflow d));;
        archive_message service (id message)
      else
        logging INFO (Msg_action_required (i_repo d));;
        mark_as_read service (id message)
  | None =>
      logging INFO Msg_no_structured_data;;
      mark_as_read service (id message)
  end.

Definition process_messages (service : Service) : M unit :=
  try_except
    (results ← api_list query;
     let messages := default [] (messages results) in
     match messages with
     | [] => logging INFO Msg_no_new_failures
     | _ :: _ =>
         logging INFO (Msg_found (length messages));;
         for_each messages (process_message service)
     end)
    is_HttpError
    (fun error => logging ERROR (Msg_process_error error)).

(** *** Authentication *)

Definition path_exists (p : path) : M bool :=
  external (CallPathExists p) (fun w => inr (env_path_exists env (trace w) p)).

Definition load_token : M Credentials :=
  external CallLoadToken (fun w => env_load_token env (trace w)).

Definition build (creds : Credentials) : M Service :=
  external (CallBuild creds) (fun w => env_build env (trace w) creds).

Definition refresh (creds : Credentials) : M Credentials :=
  external (CallRefresh creds) (fun w => env_refresh env (trace w) creds).

Definition write_token (creds : Credentials) : M unit :=
  external (CallWriteToken creds)
    (fun w => match env_write_token env (trace w) creds with
              | Some e => inl e
              | None => inr tt
              end).

Definition oauth_flow : M Credentials :=
  external CallOAuthFlow (fun w => env_oauth_flow env (trace w)).

(** [bool(creds.refresh_token)] *)
Definition has_refresh_token (creds : Credentials) : bool :=
  match refresh_token creds with
  | Some (_ :: _) => true
  | _ => false
  end.

(** Step 1: the saved token. [inl service] is [return service]; [inr creds]
    goes on with the value [creds] has at the end of the step. *)
Definition saved_token_step : M (Service + option Credentials) :=
  exists_ ← path_exists TOKEN_FILE;
  if exists_ : bool then
    try_except
      (creds ← load_token;
       if valid creds then
         logging INFO Msg_using_saved_token;;
         try_except
           (service ← build creds; mret (inl service))
           is_Exception
           (fun e => logging WARNING (Msg_token_connect_error e);;
                     mret (inr None))
       else mret (inr (Some creds)))
      is_Exception
      (fun _ => logging WARNING Msg_token_invalid;; mret (inr None))
  else mret (inr None).

(** Step 2: refresh an expired token. *)
Definition refresh_step (creds : option Credentials) : M (option Service) :=
  match creds with
  | Some c =>
      if expired c && has_refresh_token c then
        try_except
          (logging INFO Msg_refreshing_token;;
           c' ← refresh c;
           write_token c';;
           service ← build c';
           mret (Some service))
          is_Exception
          (fun e => logging WARNING (Msg_refresh_failed e);; mret None)
      else mret None
  | None => mret None
  end.

(** Step 3: the OAuth flow with [credentials.json]. *)
Definition oauth_step : M (option Service) :=
  exists_ ← path_exists CREDENTIALS_FILE;
  if exists_ : bool then
    try_except
      (logging INFO Msg_oauth_flow_start;;
       creds ← oauth_flow;
       write_token creds;;
       logging INFO Msg_auth_ok;;
       service ← build creds;
       mret (Some service))
      is_Exception
      (fun e => logging ERROR (Msg_credentials_error e);; mret None)
  else mret None.

Definition get_gmail_service : M (option Service) :=
  r1 ← saved_token_step;
  match r1 with
  | inl service => mret (Some service)
  | inr creds =>
      r2 ← refresh_step creds;
      match r2 with
      | Some service => mret (Some service)
      | None =>
          r3 ← oauth_step;
          match r3 with
          | Some service => mret (Some service)
          | None =>
              logging ERROR Msg_no_credentials;;
              for_each (seq 0 8) (fun i => logging INFO (Msg_instructions i));;
              mret None
          end
      end
  end.

(** The [__main__] block, after [argparse] has produced [args]. *)
Definition main (args : Args) : M unit :=
  logging INFO (Msg_starting (max_emails args));;
  (if dry_run args then logging INFO Msg_dry_run else mret tt);;
  service ← get_gmail_service;
  match service with
  | Some s => process_messages s
  | None => mret tt
  end.

(** ** Vocabulary of the statements *)

(** A non-empty run of word characters and hyphens. *)
Definition wordy (s : pystr) : Prop :=
  s ≠ [] ∧ Forall (fun c => atom_matches word_or_hyphen c = true) s.

(** A non-empty run of characters other than the newline. *)
Definition one_line (s : pystr) : Prop :=
  s ≠ [] ∧ Forall (fun c => atom_matches A_any c = true) s.

(** [[o/n] Run failed: W -] followed by [rest]. *)
Definition shape (o n W rest : pystr) : pystr :=
  lit "[" ++ (o ++ lit "/" ++ n) ++ lit "] Run failed: " ++ W ++ lit " -" ++ rest.

(** The text has the shape at offset [i], with these parts. *)
Definition occurrence (text : pystr) (i : nat) (o n W : pystr) : Prop :=
  wordy o ∧ wordy n ∧ one_line W ∧
  ∃ pre rest, text = pre ++ shape o n W rest ∧ length pre = i.






(** The text [process_message] hands to the extractor. *)
Definition subject_of (msg : MessageResource) : pystr :=
  default (lit "Sin Asunto")
    (first_header_value (lit "Subject")
       (default [] (headers (default {| headers := None |} (payload msg))))).

Definition text_of (msg : MessageResource) : pystr :=
  subject_of msg ++ lit " " ++ default [] (snippet msg).

Definition remove_label (l : string) : ModifyBody :=
  {| addLabelIds := []; removeLabelIds := [lit l] |}.

(** The value a computation returns, the world it leaves, what it logs. *)
Definition outcome {A} (r : (exn + A) * World * list LogRecord) : exn + A := r.1.1.
Definition world_after {A} (r : (exn + A) * World * list LogRecord) : World := r.1.2.
Definition logged {A} (r : (exn + A) * World * list LogRecord) : list LogRecord := r.2.

(** What is needed for the answer [True]. *)
Definition passing (repo workflow_name : pystr) (w : World) : Prop :=
  ∃ result first rest d,
    env_subprocess env (trace w) (gh_argv repo workflow_name) = inr result ∧
    returncode result = 0%Z ∧
    json_loads (stdout result) = inr (PList (first :: rest)) ∧
    first = PDict d ∧
    d !! lit "conclusion" = Some (PStr (lit "success")).

(** A stored message without the label [l]. *)
Definition without_label (l : string) (m : StoredMessage) : StoredMessage :=
  {| labelIds := labelIds m ∖ {[lit l]}; resource := resource m |}.

(** From [w] to [w'], one [modify] request for [msg_id] was made, removing
    the label [l]; the mailbox is as before or has lost that label on that
    message, the latter whenever the environment lets the request through;
    no message appears or disappears, no other label and no other field of
    any message changes. *)
Definition only_removes (l : string) (msg_id : pystr) (w w' : World) : Prop :=
  trace w' = trace w ++ [CallModify msg_id (remove_label l)] ∧
  (mailbox w' = mailbox w
   ∨ mailbox w' = alter (without_label l) msg_id (mailbox w)) ∧
  (env_modify_fault env (trace w) msg_id (remove_label l) = None →
   mailbox w' = alter (without_label l) msg_id (mailbox w)) ∧
  dom (mailbox w') = dom (mailbox w) ∧
  ∀ i m, mailbox w !! i = Some m →
    ∃ m', mailbox w' !! i = Some m' ∧
      resource m' = resource m ∧
      labelIds m' ⊆ labelIds m ∧
      (∀ x, x ≠ lit l → x ∈ labelIds m → x ∈ labelIds m') ∧
      (i ≠ msg_id → m' = m).

(** A call that is no mailbox mutation, or a [modify] request that only
    removes [INBOX] or only removes [UNREAD]. *)
Definition harmless (c : Call) : Prop :=
  match c with
  | CallModify _ body =>
      body = remove_label "INBOX" ∨ body = remove_label "UNREAD"
  | _ => True
  end.

(** From [w] to [w'] only harmless calls were made and the mailbox lost at
    most [INBOX] and [UNREAD] labels: the same messages, with the same
    fields and every other label as before. *)
Definition only_label_removals (w w' : World) : Prop :=
  (∃ calls, trace w' = trace w ++ calls ∧ Forall harmless calls) ∧
  dom (mailbox w') = dom (mailbox w) ∧
  ∀ i m, mailbox w !! i = Some m →
    ∃ m', mailbox w' !! i = Some m' ∧
      resource m' = resource m ∧
      labelIds m' ⊆ labelIds m ∧
      ∀ x, x ≠ lit "INBOX" → x ≠ lit "UNREAD" →
        x ∈ labelIds m → x ∈ labelIds m'.

(** A computation that, from any world, only removes those labels. *)
Definition removes_labels_only {A} (m : M A) : Prop :=
  ∀ w, only_label_removals w (world_after (m w)).

(** A call of the authentication: the two files, the token endpoint, the
    local OAuth flow, building the client. *)
Definition auth_call (c : Call) : Prop :=
  match c with
  | CallPathExists _ | CallLoadToken | CallBuild _ | CallRefresh _
  | CallWriteToken _ | CallOAuthFlow => True
  | _ => False
  end.

(** What [get_gmail_service] logs when it gives up. *)
Definition no_credentials_notice : list LogRecord :=
  (ERROR, Msg_no_credentials) :: ((λ i, (INFO, Msg_instructions i)) <$> seq 0 8).

(** From any world, the computation returns (it does not raise), having
    made only calls that satisfy [P] and left the mailbox alone. *)
Definition returns_with {A} (P : Call → Prop) (m : M A) : Prop :=
  ∀ w, ∃ a calls l,
    m w = (inr a, {| mailbox := mailbox w; trace := trace w ++ calls |}, l) ∧
    Forall P calls.

(** The same, but the computation may raise. *)
Definition calls_only {A} (P : Call → Prop) (m : M A) : Prop :=
  ∀ w, ∃ r calls l,
    m w = (r, {| mailbox := mailbox w; trace := trace w ++ calls |}, l) ∧
    Forall P calls.

(** The messages fetched, the messages a [modify] request was sent for and
    the [gh] command lines run, in the order of the calls. *)
Definition fetched (tr : list Call) : list pystr :=
  omap (λ c, match c with CallGet i => Some i | _ => None end) tr.

Definition mutated (tr : list Call) : list pystr :=
  omap (λ c, match c with CallModify i _ => Some i | _ => None end) tr.

Definition checked (tr : list Call) : list (list pystr) :=
  omap (λ c, match c with CallSubprocess argv => Some argv | _ => None end) tr.

(** The calls made from [w] to [w']. *)
Definition calls_since (w w' : World) : list Call :=
  drop (length (trace w)) (trace w').

(** Every message of [w] is still in [w'], with the fields it had. *)
Definition same_messages (w w' : World) : Prop :=
  ∀ i m, mailbox w !! i = Some m →
    ∃ m', mailbox w' !! i = Some m' ∧ resource m' = resource m.

(** Repository and workflow the extractor finds in a stored message. *)
Definition record_of (m : StoredMessage) : option (pystr * pystr) :=
  (λ c, (group c 1, group c 2)) <$> re_search failure_pattern (text_of (resource m)).

(** The [gh] command lines for the messages of a listing that yield a
    record, one for each such message, in the order of the listing. *)
Definition expected_checks (mb : gmap pystr StoredMessage)
    (msgs : list MessageRef) : list (list pystr) :=
  omap (λ r, m ← mb !! id r; rw ← record_of m; Some (gh_argv rw.1 rw.2)) msgs.

(** The mailbox service answers every [get], and fails a [modify] request
    with [HttpError] if at all. *)
Definition mailbox_answers : Prop :=
  (∀ tr i, env_get_fault env tr i = None) ∧
  (∀ tr i b, env_modify_fault env tr i b = None
             ∨ ∃ s, env_modify_fault env tr i b = Some (HttpError s)).

(** Nothing is raised inside the [try] of [check_workflow_status]: the
    process ran, and it exited with a status other than zero, or its output
    parsed to a value that is false as a condition, or to a list whose first
    element is an object. *)
Definition check_raises_nothing (repo workflow_name : pystr) (w : World) : Prop :=
  ∃ result,
    env_subprocess env (trace w) (gh_argv repo workflow_name) = inr result ∧
    (returncode result ≠ 0%Z
     ∨ ∃ runs, json_loads (stdout result) = inr runs ∧
         (truthy runs = false ∨ ∃ d rest, runs = PList (PDict d :: rest))).

(** Repository and workflow of the record the extractor returns, if any. *)
Definition names (r : option IssueData) : option (pystr * pystr) :=
  (λ d, (i_repo d, i_workflow d)) <$> r.

(** ** Sample data: a mailbox, an environment *)

(** No code point from 128 on counts as alphanumeric: enough for ASCII
    texts. *)
Definition sample_isalnum : char → bool := λ _, false.

(** [[{"conclusion":"<c>"}]], the output of [gh run list --json conclusion]. *)
Definition gh_output (c : string) : pystr :=
  lit "[{" ++ [dquote] ++ lit "conclusion" ++ [dquote] ++ lit ":"
  ++ [dquote] ++ lit c ++ [dquote] ++ lit "}]".

(** [json.loads] on the outputs used below; anything else is taken not to
    parse. *)
Definition sample_json_loads (s : pystr) : exn + pyvalue :=
  if bool_decide (s = gh_output "success") then
    inr (PList [PDict {[lit "conclusion" := PStr (lit "success")]}])
  else if bool_decide (s = gh_output "failure") then
    inr (PList [PDict {[lit "conclusion" := PStr (lit "failure")]}])
  else if bool_decide (s = lit "[]") then inr (PList [])
  else inl (OtherException (lit "JSONDecodeError")).

Definition sample_credentials : Credentials :=
  {| valid := true; expired := false; refresh_token := Some (lit "r") |}.

Definition sample_service : Service := {| svc_credentials := sample_credentials |}.

(** An environment with a saved valid token, where [list] gives [answer],
    [modify] fails as [modify_fault] says and [gh] prints [out] and exits
    with [code]. *)
Definition sample_env (answer : exn + ListResponse) (modify_fault : option exn)
    (code : Z) (out : pystr) : Env :=
  {| env_path_exists := λ _ _, true;
     env_load_token := λ _, inr sample_credentials;
     env_build := λ _ c, inr {| svc_credentials := c |};
     env_refresh := λ _ c, inr c;
     env_write_token := λ _ _, None;
     env_oauth_flow := λ _, inr sample_credentials;
     env_list := λ _ _, answer;
     env_get_fault := λ _ _, None;
     env_modify_fault := λ _ _ _, modify_fault;
     env_subprocess := λ _ _, inr {| returncode := code; stdout := out; stderr := [] |} |}.

Definition message_with_subject (subject : string) : StoredMessage :=
  {| labelIds := {[lit "INBOX"; lit "UNREAD"; lit "CATEGORY_UPDATES"]};
     resource :=
       {| snippet := Some [];
          payload := Some {| headers := Some [ {| h_name := lit "From";
                                                  h_value := lit "notifications@github.com" |};
                                               {| h_name := lit "Subject";
                                                  h_value := lit subject |} ] |} |} |}.

Definition failed_run_message : StoredMessage :=
  message_with_subject "[iberi22/domus-otec] Run failed: CI - main (c33f718)".

Definition dotted_repo_message : StoredMessage :=
  message_with_subject "[owner/repo.js] Run failed: CI - main (sha)".

(** A mailbox with two messages, [m1] and [m3]; there is no [m2]. *)
Definition sample_world : World :=
  {| mailbox := {[lit "m1" := failed_run_message; lit "m3" := dotted_repo_message]};
     trace := [] |}.

Definition ref (i : string) : MessageRef := {| id := lit i |}.

Definition listing (ids : list string) : exn + ListResponse :=
  inr {| messages := Some (ref <$> ids) |}.

(** The workflow passes again. *)
Definition passing_env : Env :=
  sample_env (listing ["m1"; "m3"]) None 0 (gh_output "success").

(** The workflow still fails. *)
Definition failing_env : Env :=
  sample_env (listing ["m1"; "m3"]) None 0 (gh_output "failure").

(** Every [modify] request is answered with status 500. *)
Definition broken_env : Env :=
  sample_env (listing ["m1"; "m3"]) (Some (HttpError 500)) 0 (gh_output "success").

(** The list query is answered with status 503. *)
Definition down_env : Env :=
  sample_env (inl (HttpError 503)) None 0 (gh_output "success").

(** The list names a message, [m2], that the mailbox does not have. *)
Definition gap_env : Env :=
  sample_env (listing ["m1"; "m2"; "m3"]) None 0 (gh_output "success").

(** The sample world once the list query is made and [m1], whose workflow
    passes again, has been archived; and what that round logs. *)
Definition after_first_round : World :=
  {| mailbox := <[lit "m1" := without_label "INBOX" failed_run_message]>
                  (mailbox sample_world);
     trace := [CallList query;
               CallGet (lit "m1");
               CallSubprocess (gh_argv (lit "iberi22/domus-otec") (lit "CI"));
               CallModify (lit "m1") (remove_label "INBOX")] |}.

Definition first_round_log : list LogRecord :=
  [(INFO, Msg_processing (lit "[iberi22/domus-otec] Run failed: CI - main (c33f718)"));
   (INFO, Msg_detected (lit "iberi22/domus-otec") (lit "CI"));
   (INFO, Msg_already_passing (lit "CI"));
   (INFO, Msg_archived (lit "m1"))].


Definition no_space_after_hyphen : pystr := lit "[a/b] Run failed: CI -main".





(** Credentials that have expired and can be refreshed. *)
Definition stale_credentials : Credentials :=
  {| valid := false; expired := true; refresh_token := Some (lit "r") |}.

(** An environment for the authentication: which of the two files exist and
    what the token file loads to; the token endpoint and the OAuth flow give
    the sample credentials, and the mailbox and [gh] answer as in
    [passing_env]. *)
Definition auth_env (token_file credentials_file : bool)
    (loaded : exn + Credentials) : Env :=
  {| env_path_exists := λ _ p, match p with
                               | TOKEN_FILE => token_file
                               | CREDENTIALS_FILE => credentials_file
                               end;
     env_load_token := λ _, loaded;
     env_build := λ _ c, inr {| svc_credentials := c |};
     env_refresh := λ _ _, inr sample_credentials;
     env_write_token := λ _ _, None;
     env_oauth_flow := λ _, inr sample_credentials;
     env_list := λ _ _, listing ["m1"; "m3"];
     env_get_fault := λ _ _, None;
     env_modify_fault := λ _ _ _, None;
     env_subprocess := λ _ _, inr {| returncode := 0;
                                     stdout := gh_output "success";
                                     stderr := [] |} |}.

(** Neither [token.json] nor [credentials.json]. *)
Definition no_files_env : Env :=
  auth_env false false (inl (OtherException (lit "FileNotFoundError"))).

(** A saved token that has expired. *)
Definition stale_token_env : Env := auth_env true true (inr stale_credentials).

(** The list names the same message twice. *)
Definition twice_env : Env :=
  sample_env (listing ["m1"; "m1"]) None 0 (gh_output "success").

(** The list response has no [messages] key. *)
Definition empty_env : Env :=
  sample_env (inr {| messages := None |}) None 0 (gh_output "success").

(** A message without a [Subject] header (the name is in lower case), whose
    snippet has the shape. *)
Definition no_subject_message : StoredMessage :=
  {| labelIds := {[lit "INBOX"; lit "UNREAD"]};
     resource :=
       {| snippet := Some (lit "[a/b] Run failed: CI - main (sha)");
          payload := Some {| headers := Some [ {| h_name := lit "subject";
                                                  h_value := lit "[c/d] Run failed: X - y" |} ] |} |} |}.

(** The list query times out: an exception that is no [HttpError]. *)
Definition offline_env : Env :=
  sample_env (inl (OtherException (lit "TimeoutError"))) None 0 (gh_output "success").

(** Headers with two subjects. *)
Definition two_subjects : list Header :=
  [ {| h_name := lit "subject"; h_value := lit "lower case" |};
    {| h_name := lit "Subject"; h_value := lit "first" |};
    {| h_name := lit "Subject"; h_value := lit "second" |} ].

(** ** The status check *)

(** Keeps the automation from touching parameters a statement does not
    mention. *)
Ltac forget_unused :=
  repeat match goal with
         | x : char → bool |- _ => clear x
         | x : pystr → exn + pyvalue |- _ => clear x
         | x : Env |- _ => clear x
         end.

Ltac unfold_M :=
  unfold try_except, external, lift, logging, mbind, M_bind, bind, mret,
    M_ret, ret, raise in *.

Lemma py_eq_str_true v s : py_eq_str v s = true ↔ v = PStr s.
Proof.
  destruct v; simpl; try (split; [discriminate | congruence]).
  rewrite bool_decide_eq_true. split; congruence.
Qed.

(** The status check, case by case on what the process and the parser
    give. *)
Lemma check_workflow_status_spec (repo workflow_name : pystr) (w : World) :
  ∃ b l,
    check_workflow_status repo workflow_name w
      = (inr b, record_call (CallSubprocess (gh_argv repo workflow_name)) w, l) ∧
    (b = true ↔ passing repo workflow_name w).
Proof.
  assert (Hinv : ∀ P : Prop,
    (∀ result rest d,
       env_subprocess env (trace w) (gh_argv repo workflow_name) = inr result →
       returncode result = 0%Z →
       json_loads (stdout result) = inr (PList (PDict d :: rest)) →
       d !! lit "conclusion" = Some (PStr (lit "success")) → P) →
    passing repo workflow_name w → P).
  { intros P HP (r&first&rest&d&Hr&Hz&Hj&->&Hd). eauto. }
  unfold check_workflow_status, subprocess_run. unfold_M.
  destruct (env_subprocess env (trace w) (gh_argv repo workflow_name))
    as [e|result] eqn:Hrun; simpl.
  { eexists _, _. split; [reflexivity|].
    split; [discriminate|]. apply Hinv. intros; congruence. }
  destruct (returncode result =? 0)%Z eqn:Hrc; simpl.
  2:{ eexists _, _. split; [reflexivity|].
      split; [discriminate|]. apply Hinv. intros r ? ? [= <-] Hz.
      apply Z.eqb_neq in Hrc. contradiction. }
  apply Z.eqb_eq in Hrc.
  destruct (json_loads (stdout result)) as [e|runs] eqn:Hjson; simpl.
  { eexists _, _. split; [reflexivity|].
    split; [discriminate|]. apply Hinv. intros r ? ? [= <-]. congruence. }
  assert (Hinv' : ∀ P : Prop,
    (∀ rest d, runs = PList (PDict d :: rest) →
       d !! lit "conclusion" = Some (PStr (lit "success")) → P) →
    passing repo workflow_name w → P).
  { intros P HP. apply Hinv. intros r rest d [= <-] _ Hj Hd.
    rewrite Hjson in Hj. injection Hj as ->. eauto. }
  clear Hinv.
  destruct runs as [|b|z|f|s|l|d]; simpl.
  - eexists _, _. split; [reflexivity|]. split; [discriminate|].
    apply Hinv'. discriminate.
  - destruct b; simpl; eexists _, _; (split; [reflexivity|]);
      (split; [discriminate|]); apply Hinv'; discriminate.
  - destruct (z =? 0)%Z; simpl; eexists _, _; (split; [reflexivity|]);
      (split; [discriminate|]); apply Hinv'; discriminate.
  - destruct f; simpl; eexists _, _; (split; [reflexivity|]);
      (split; [discriminate|]); apply Hinv'; discriminate.
  - destruct s as [|c s]; simpl; eexists _, _; (split; [reflexivity|]);
      (split; [discriminate|]); apply Hinv'; discriminate.
  - destruct l as [|first rest]; simpl.
    { eexists _, _. split; [reflexivity|]. split; [discriminate|].
      apply Hinv'. discriminate. }
    destruct first as [| | | | |?|d]; simpl;
      try (eexists _, _; (split; [reflexivity|]);
           (split; [discriminate|]); apply Hinv'; congruence).
    eexists _, _. split; [reflexivity|].
    rewrite py_eq_str_true. split.
    + intros Hc. exists result, (PDict d), rest, d.
      repeat split; try done.
      destruct (d !! lit "conclusion") as [v|]; simpl in Hc; congruence.
    + apply Hinv'. intros rest' d' [= <- <-] ->. done.
  - destruct (bool_decide (d = ∅)); simpl.
    { eexists _, _. (split; [reflexivity|]);
      (split; [discriminate|]); apply Hinv'; discriminate. }
    destruct (0 <? Z.of_nat (size d))%Z; simpl;
      eexists _, _; (split; [reflexivity|]);
      (split; [discriminate|]); apply Hinv'; discriminate.
Qed.

(** C1: [check_workflow_status] always returns a boolean, never raises, makes
    the one [gh run list] call, and the boolean is [True] exactly when the
    process exits with status zero, its output parses to a non-empty list
    and the first element is an object whose [conclusion] is the string
    [success]. *)
Theorem check_workflow_status_true_iff (repo workflow_name : pystr) (w : World) :
  ∃ b l,
    check_workflow_status repo workflow_name w
      = (inr b, record_call (CallSubprocess (gh_argv repo workflow_name)) w, l) ∧
    (b = true ↔ passing repo workflow_name w).
Proof. apply check_workflow_status_spec. Qed.


(** ** The label mutations *)

Lemma outcome_triple {A} (r : exn + A) (w : World) (l : list LogRecord) :
  outcome (r, w, l) = r.
Proof. reflexivity. Qed.

Lemma world_after_triple {A} (r : exn + A) (w : World) (l : list LogRecord) :
  world_after (r, w, l) = w.
Proof. reflexivity. Qed.

Lemma logged_triple {A} (r : exn + A) (w : World) (l : list LogRecord) :
  logged (r, w, l) = l.
Proof. reflexivity. Qed.

Lemma modify_labels_remove (l : string) (m : StoredMessage) :
  modify_labels (remove_label l) m = without_label l m.
Proof.
  forget_unused.
  unfold modify_labels, without_label, remove_label. simpl. f_equal.
  set_solver.
Qed.

Lemma api_modify_trace (msg_id : pystr) (body : ModifyBody) (w : World) :
  trace (world_after (api_modify msg_id body w))
  = trace w ++ [CallModify msg_id body].
Proof.
  unfold api_modify, world_after.
  destruct (env_modify_fault env (trace w) msg_id body); [done|].
  destruct (mailbox w !! msg_id); done.
Qed.

Lemma api_modify_logged (msg_id : pystr) (body : ModifyBody) (w : World) :
  logged (api_modify msg_id body w) = [].
Proof.
  unfold api_modify, logged.
  destruct (env_modify_fault env (trace w) msg_id body); [done|].
  destruct (mailbox w !! msg_id); done.
Qed.

(** The mailbox after a [modify] request: touched only when the request
    returns. *)
Lemma api_modify_mailbox (msg_id : pystr) (l : string) (w : World) :
  mailbox (world_after (api_modify msg_id (remove_label l) w))
  = match env_modify_fault env (trace w) msg_id (remove_label l) with
    | Some _ => mailbox w
    | None => alter (without_label l) msg_id (mailbox w)
    end.
Proof.
  unfold api_modify, world_after.
  destruct (env_modify_fault env (trace w) msg_id (remove_label l)); [done|].
  destruct (mailbox w !! msg_id) as [m|] eqn:Hm; simpl.
  - rewrite modify_labels_remove. apply map_eq. intros i.
    destruct (decide (i = msg_id)) as [->|Hne].
    + rewrite lookup_insert_eq, lookup_alter_eq, Hm. done.
    + rewrite lookup_insert_ne, lookup_alter_ne by done. done.
  - apply map_eq. intros i. destruct (decide (i = msg_id)) as [->|Hne].
    + rewrite lookup_alter_eq, Hm. done.
    + rewrite lookup_alter_ne by done. done.
Qed.

Lemma api_modify_only_removes (msg_id : pystr) (l : string) (w : World) :
  only_removes l msg_id w (world_after (api_modify msg_id (remove_label l) w)).
Proof.
  forget_unused.
  unfold only_removes. rewrite api_modify_trace, api_modify_mailbox.
  split; [done|].
  assert (Hdom : dom (alter (without_label l) msg_id (mailbox w)) = dom (mailbox w)).
  { apply set_eq. intros i. rewrite !elem_of_dom.
    destruct (decide (i = msg_id)) as [->|Hne].
    - rewrite lookup_alter_eq. destruct (mailbox w !! msg_id); simpl;
        split; intros [? ?]; eauto; discriminate.
    - rewrite lookup_alter_ne by done. done. }
  assert (Hframe : ∀ i m, mailbox w !! i = Some m →
    ∃ m', alter (without_label l) msg_id (mailbox w) !! i = Some m' ∧
      resource m' = resource m ∧ labelIds m' ⊆ labelIds m ∧
      (∀ x, x ≠ lit l → x ∈ labelIds m → x ∈ labelIds m') ∧
      (i ≠ msg_id → m' = m)).
  { intros i m Hm. destruct (decide (i = msg_id)) as [->|Hne].
    - exists (without_label l m). rewrite lookup_alter_eq, Hm. simpl.
      repeat split; [set_solver | set_solver | done].
    - exists m. rewrite lookup_alter_ne by done.
      repeat split; [done | set_solver | done]. }
  destruct (env_modify_fault env (trace w) msg_id (remove_label l)) as [e|].
  - split; [by left|]. split; [discriminate|]. split; [done|].
    intros i m Hm. exists m. repeat split; [done | set_solver | done].
  - split; [by right|]. done.
Qed.

(** [mark_as_read] and [archive_message], in terms of their one request. *)
Lemma mark_as_read_run (service : Service) (msg_id : pystr) (w : World) :
  let r := api_modify msg_id (remove_label "UNREAD") w in
  mark_as_read service msg_id w
  = match outcome r with
    | inr _ => (inr tt, world_after r, [(INFO, Msg_marked_read msg_id)])
    | inl (HttpError s) =>
        (inr tt, world_after r, [(ERROR, Msg_mark_read_error (HttpError s))])
    | inl e => (inl e, world_after r, [])
    end.
Proof.
  unfold mark_as_read, remove_label. unfold_M. unfold outcome, world_after.
  pose proof (api_modify_logged msg_id
    {| addLabelIds := []; removeLabelIds := [lit "UNREAD"] |} w) as Hl.
  unfold logged in Hl.
  destruct (api_modify _ _ w) as [[[e|[]] w'] l]; simpl in *; subst l;
    [destruct e|]; done.
Qed.

Lemma archive_message_run (service : Service) (msg_id : pystr) (w : World) :
  let r := api_modify msg_id (remove_label "INBOX") w in
  archive_message service msg_id w
  = match outcome r with
    | inr _ => (inr tt, world_after r, [(INFO, Msg_archived msg_id)])
    | inl (HttpError s) =>
        (inr tt, world_after r, [(ERROR, Msg_archive_error (HttpError s))])
    | inl e => (inl e, world_after r, [])
    end.
Proof.
  unfold archive_message, remove_label. unfold_M. unfold outcome, world_after.
  pose proof (api_modify_logged msg_id
    {| addLabelIds := []; removeLabelIds := [lit "INBOX"] |} w) as Hl.
  unfold logged in Hl.
  destruct (api_modify _ _ w) as [[[e|[]] w'] l]; simpl in *; subst l;
    [destruct e|]; done.
Qed.

Lemma mark_as_read_world (service : Service) (msg_id : pystr) (w : World) :
  world_after (mark_as_read service msg_id w)
  = world_after (api_modify msg_id (remove_label "UNREAD") w).
Proof.
  rewrite mark_as_read_run. simpl.
  destruct (outcome _) as [[]|]; done.
Qed.

Lemma archive_message_world (service : Service) (msg_id : pystr) (w : World) :
  world_after (archive_message service msg_id w)
  = world_after (api_modify msg_id (remove_label "INBOX") w).
Proof.
  rewrite archive_message_run. simpl.
  destruct (outcome _) as [[]|]; done.
Qed.

(** *** Nothing but label removals, in the whole run *)

Lemma only_label_removals_refl (w : World) : only_label_removals w w.
Proof.
  forget_unused. split; [|split].
  - exists []. by rewrite app_nil_r.
  - done.
  - intros i m Hm. exists m. repeat split; [done | set_solver | done].
Qed.

Lemma only_label_removals_trans (w1 w2 w3 : World) :
  only_label_removals w1 w2 → only_label_removals w2 w3 →
  only_label_removals w1 w3.
Proof.
  forget_unused.
  intros ((c1 & Ht1 & Hc1) & Hd1 & Hf1) ((c2 & Ht2 & Hc2) & Hd2 & Hf2).
  split; [|split].
  - exists (c1 ++ c2). rewrite Ht2, Ht1, app_assoc. split; [done|].
    by apply Forall_app.
  - congruence.
  - intros i m Hm. destruct (Hf1 _ _ Hm) as (m' & Hm' & Hr' & Hs' & Hk').
    destruct (Hf2 _ _ Hm') as (m'' & Hm'' & Hr'' & Hs'' & Hk'').
    exists m''. repeat split; [done | congruence | set_solver | auto].
Qed.

Lemma only_label_removals_call (c : Call) (w : World) :
  harmless c → only_label_removals w (record_call c w).
Proof.
  forget_unused. intros Hc. split; [|split].
  - exists [c]. split; [done|]. by constructor.
  - done.
  - intros i m Hm. exists m. repeat split; [done | set_solver | done].
Qed.

Lemma only_removes_label_removals (l : string) (msg_id : pystr) (w w' : World) :
  l = "INBOX" ∨ l = "UNREAD" →
  only_removes l msg_id w w' → only_label_removals w w'.
Proof.
  intros Hl (Ht & _ & _ & Hd & Hf). split; [|split].
  - eexists. split; [exact Ht|]. constructor; [|constructor].
    simpl. destruct Hl as [->| ->]; auto.
  - done.
  - intros i m Hm. destruct (Hf _ _ Hm) as (m' & Hm' & Hr & Hs & Hk & _).
    exists m'. repeat split; try done.
    intros x Hi Hu Hx. apply Hk; [|done]. destruct Hl as [->| ->]; done.
Qed.

Lemma removes_ret {A} (a : A) : removes_labels_only (mret a : M A).
Proof. intros w. apply only_label_removals_refl. Qed.

Lemma removes_lift {A} (r : exn + A) : removes_labels_only (lift r).
Proof. intros w. apply only_label_removals_refl. Qed.

Lemma removes_logging (lvl : Level) (msg : LogMsg) :
  removes_labels_only (logging lvl msg).
Proof. intros w. apply only_label_removals_refl. Qed.

Lemma removes_external {A} (c : Call) (answer : World → exn + A) :
  harmless c → removes_labels_only (external c answer).
Proof. intros Hc w. by apply only_label_removals_call. Qed.

Lemma removes_bind {A B} (m : M A) (f : A → M B) :
  removes_labels_only m → (∀ a, removes_labels_only (f a)) →
  removes_labels_only (m ≫= f).
Proof.
  intros Hm Hf w. specialize (Hm w). unfold_M. unfold world_after in *.
  destruct (m w) as [[[e|a] w1] l1]; [done|].
  specialize (Hf a w1). unfold world_after in Hf.
  destruct (f a w1) as [[r w2] l2]. simpl in *.
  by eapply only_label_removals_trans.
Qed.

Lemma removes_try_except {A} (m : M A) (catches : exn → bool) (h : exn → M A) :
  removes_labels_only m → (∀ e, removes_labels_only (h e)) →
  removes_labels_only (try_except m catches h).
Proof.
  intros Hm Hh w. specialize (Hm w). unfold_M. unfold world_after in *.
  destruct (m w) as [[[e|a] w1] l1]; [|done].
  destruct (catches e); [|done].
  specialize (Hh e w1). unfold world_after in Hh.
  destruct (h e w1) as [[r w2] l2]. simpl in *.
  by eapply only_label_removals_trans.
Qed.

Lemma removes_for_each {A} (l : list A) (body : A → M unit) :
  (∀ x, removes_labels_only (body x)) →
  removes_labels_only (for_each l body).
Proof.
  intros Hbody. induction l as [|x l IH]; simpl.
  - apply removes_ret.
  - apply removes_bind; [apply Hbody | intros _; apply IH].
Qed.

Lemma removes_api_modify (msg_id : pystr) (l : string) :
  l = "INBOX" ∨ l = "UNREAD" →
  removes_labels_only (api_modify msg_id (remove_label l)).
Proof.
  intros Hl w. eapply only_removes_label_removals; [exact Hl|].
  apply api_modify_only_removes.
Qed.

(** One step of a proof that a computation only removes labels. *)
Ltac removes_step :=
  first
    [ apply removes_ret
    | apply removes_lift
    | apply removes_logging
    | apply removes_external; exact I
    | apply removes_api_modify; auto
    | apply removes_for_each; intros
    | apply removes_try_except; [|intros]
    | apply removes_bind; [|intros]
    | match goal with
      | |- removes_labels_only (if ?b then _ else _) => destruct b
      | |- removes_labels_only (match ?x with _ => _ end) => destruct x
      end ].

Lemma removes_mark_as_read (service : Service) (msg_id : pystr) :
  removes_labels_only (mark_as_read service msg_id).
Proof. unfold mark_as_read. repeat removes_step. Qed.

Lemma removes_archive_message (service : Service) (msg_id : pystr) :
  removes_labels_only (archive_message service msg_id).
Proof. unfold archive_message. repeat removes_step. Qed.

Lemma removes_check_workflow_status (repo workflow_name : pystr) :
  removes_labels_only (check_workflow_status repo workflow_name).
Proof.
  unfold check_workflow_status, subprocess_run. repeat removes_step.
Qed.

Lemma removes_process_message (service : Service) (message : MessageRef) :
  removes_labels_only (process_message service message).
Proof.
  unfold process_message, api_get, parse_github_email.
  repeat first [ apply removes_mark_as_read
               | apply removes_archive_message
               | apply removes_check_workflow_status
               | removes_step ].
Qed.

Lemma removes_process_messages (service : Service) :
  removes_labels_only (process_messages service).
Proof.
  unfold process_messages, api_list.
  repeat first [ apply removes_process_message | removes_step ].
Qed.

Lemma removes_get_gmail_service : removes_labels_only get_gmail_service.
Proof.
  unfold get_gmail_service, saved_token_step, refresh_step, oauth_step,
    path_exists, load_token, build, refresh, write_token, oauth_flow.
  repeat removes_step.
Qed.

Lemma removes_main (args : Args) : removes_labels_only (main args).
Proof.
  unfold main.
  repeat first [ apply removes_process_messages
               | apply removes_get_gmail_service
               | removes_step ].
Qed.

(** C6: [archive_message] sends one request that removes [INBOX],
    [mark_as_read] one that removes [UNREAD]; either leaves every other
    label, every other field and every other message as it was, so marking
    read does not touch the inbox label; and a whole run makes no [modify]
    request but such ones, so that every message is still there at the end,
    with its fields and with every label other than these two. *)
Theorem mutations_only_remove_their_label
    (service : Service) (msg_id : pystr) (args : Args) (w : World) :
  only_removes "INBOX" msg_id w (world_after (archive_message service msg_id w)) ∧
  only_removes "UNREAD" msg_id w (world_after (mark_as_read service msg_id w)) ∧
  (∀ m, mailbox w !! msg_id = Some m →
     ∃ m', mailbox (world_after (mark_as_read service msg_id w)) !! msg_id = Some m' ∧
       (lit "INBOX" ∈ labelIds m' ↔ lit "INBOX" ∈ labelIds m)) ∧
  only_label_removals w (world_after (main args w)).
Proof.
  rewrite archive_message_world, mark_as_read_world.
  split; [apply api_modify_only_removes|].
  split; [apply api_modify_only_removes|].
  split; [|apply removes_main].
  intros m Hm.
  destruct (api_modify_only_removes msg_id "UNREAD" w) as (_&_&_&_&Hframe).
  destruct (Hframe _ _ Hm) as (m'&Hm'&_&Hsub&Hkeep&_).
  exists m'. split; [done|]. split; [set_solver|].
  apply Hkeep. vm_compute. discriminate.
Qed.

Lemma without_label_idemp (l : string) (m : StoredMessage) :
  without_label l (without_label l m) = without_label l m.
Proof. forget_unused. unfold without_label. simpl. f_equal. set_solver. Qed.

Lemma alter_without_label_idemp (l : string) (msg_id : pystr)
    (mb : gmap pystr StoredMessage) :
  alter (without_label l) msg_id (alter (without_label l) msg_id mb)
  = alter (without_label l) msg_id mb.
Proof.
  apply map_eq. intros i. destruct (decide (i = msg_id)) as [->|Hne].
  - rewrite !lookup_alter_eq. destruct (mb !! msg_id); simpl; [|done].
    by rewrite without_label_idemp.
  - by rewrite !lookup_alter_ne.
Qed.

Lemma api_modify_twice (l : string) (msg_id : pystr) (w : World) :
  env_modify_fault env (trace w) msg_id (remove_label l) = None →
  let once := world_after (api_modify msg_id (remove_label l) w) in
  mailbox (world_after (api_modify msg_id (remove_label l) once)) = mailbox once.
Proof.
  intros Hok once. rewrite api_modify_mailbox.
  assert (Honce : mailbox once = alter (without_label l) msg_id (mailbox w)).
  { unfold once. rewrite api_modify_mailbox, Hok. done. }
  destruct (env_modify_fault env (trace once) msg_id (remove_label l)); [done|].
  rewrite Honce. apply alter_without_label_idemp.
Qed.

(** C7: once an archive request has gone through, a second one for the same
    message leaves the labels of the mailbox as the first left them, whether
    it goes through or not; the same for mark-read. *)
Theorem mutations_idempotent (service : Service) (msg_id : pystr) (w : World) :
  env_modify_fault env (trace w) msg_id (remove_label "INBOX") = None →
  env_modify_fault env (trace w) msg_id (remove_label "UNREAD") = None →
  let archived := world_after (archive_message service msg_id w) in
  let read := world_after (mark_as_read service msg_id w) in
  mailbox (world_after (archive_message service msg_id archived)) = mailbox archived ∧
  mailbox (world_after (mark_as_read service msg_id read)) = mailbox read ∧
  mailbox archived = alter (without_label "INBOX") msg_id (mailbox w) ∧
  mailbox read = alter (without_label "UNREAD") msg_id (mailbox w).
Proof.
  intros Hi Hu archived read. unfold archived, read.
  rewrite !archive_message_world, !mark_as_read_world.
  split; [by apply api_modify_twice|].
  split; [by apply api_modify_twice|].
  rewrite !api_modify_mailbox, Hi, Hu. done.
Qed.

(** ** The processing loop *)

Lemma for_each_cons {A} (x : A) (l : list A) (body : A → M unit) (w : World) :
  for_each (x :: l) body w
  = match body x w with
    | (inl e, w1, l1) => (inl e, w1, l1)
    | (inr _, w1, l1) =>
        let '(r, w2, l2) := for_each l body w1 in (r, w2, l1 ++ l2)
    end.
Proof. reflexivity. Qed.

Lemma for_each_app {A} (l1 l2 : list A) (body : A → M unit) (w : World) :
  for_each (l1 ++ l2) body w
  = match for_each l1 body w with
    | (inl e, w1, g1) => (inl e, w1, g1)
    | (inr _, w1, g1) =>
        let '(r, w2, g2) := for_each l2 body w1 in (r, w2, g1 ++ g2)
    end.
Proof.
  revert w. induction l1 as [|x l1 IH]; intros w.
  - simpl. unfold_M. by destruct (for_each l2 body w) as [[? ?] ?].
  - rewrite <- app_comm_cons, !for_each_cons.
    destruct (body x w) as [[[e|[]] w1] g1]; [done|].
    rewrite IH.
    destruct (for_each l1 body w1) as [[[e|[]] w2] g2]; [done|].
    destruct (for_each l2 body w2) as [[r w3] g3].
    by rewrite app_assoc.
Qed.

(** The handler around the loop is [except HttpError]: an exception of
    another class leaves [process_messages] as it came. *)
Lemma list_other_exception_propagates (service : Service) (w : World) (cls : pystr) :
  env_list env (trace w) query = inl (OtherException cls) →
  process_messages service w
  = (inl (OtherException cls), record_call (CallList query) w, []).
Proof.
  intros Hlist. unfold process_messages, api_list. unfold_M.
  rewrite Hlist. reflexivity.
Qed.

(** C5, amended: when the list query raises, [process_messages] ends there,
    the query being its only call: no message is fetched, no status is
    checked, the mailbox is not touched. An [HttpError] is logged and
    [process_messages] returns normally; an exception of any other class (a
    timeout, a refused connection) is not logged and leaves
    [process_messages] as it came. *)
Theorem list_error_aborts_run (service : Service) (w : World) (e : exn) :
  env_list env (trace w) query = inl e →
  process_messages service w
  = (if is_HttpError e then inr tt else inl e,
     record_call (CallList query) w,
     if is_HttpError e then [(ERROR, Msg_process_error e)] else []).
Proof.
  intros Hlist. unfold process_messages, api_list. unfold_M.
  rewrite Hlist. by destruct e.
Qed.

Lemma parse_github_email_run (snippet body : pystr) (w : World) :
  parse_github_email snippet body w
  = match re_search failure_pattern snippet with
    | Some m =>
        (inr (Some {| i_type := lit "github_action_failure";
                      i_repo := group m 1;
                      i_workflow := group m 2;
                      i_snippet := snippet |}),
         w, [(INFO, Msg_detected (group m 1) (group m 2))])
    | None => (inr None, w, [])
    end.
Proof.
  unfold parse_github_email.
  destruct (re_search failure_pattern snippet); reflexivity.
Qed.

Lemma api_get_run (msg_id : pystr) (w : World) (m : StoredMessage) :
  env_get_fault env (trace w) msg_id = None →
  mailbox w !! msg_id = Some m →
  api_get msg_id w = (inr (resource m), record_call (CallGet msg_id) w, []).
Proof.
  intros Hf Hm. unfold api_get, external. by rewrite Hf, Hm.
Qed.

(** One round of the loop on a message the mailbox returns. *)
Lemma process_message_run (service : Service) (message : MessageRef)
    (w : World) (m : StoredMessage) :
  env_get_fault env (trace w) (id message) = None →
  mailbox w !! id message = Some m →
  let w1 := record_call (CallGet (id message)) w in
  let log0 := (INFO, Msg_processing (subject_of (resource m))) in
  process_message service message w
  = match re_search failure_pattern (text_of (resource m)) with
    | None =>
        let r := mark_as_read service (id message) w1 in
        (outcome r, world_after r,
         log0 :: (INFO, Msg_no_structured_data) :: logged r)
    | Some c =>
        let rc := check_workflow_status (group c 1) (group c 2) w1 in
        let log1 := log0 :: (INFO, Msg_detected (group c 1) (group c 2)) :: logged rc in
        match outcome rc with
        | inr true =>
            let r := archive_message service (id message) (world_after rc) in
            (outcome r, world_after r,
             log1 ++ (INFO, Msg_already_passing (group c 2)) :: logged r)
        | inr false =>
            let r := mark_as_read service (id message) (world_after rc) in
            (outcome r, world_after r,
             log1 ++ (INFO, Msg_action_required (group c 1)) :: logged r)
        | inl e => (inl e, world_after rc, log1)
        end
    end.
Proof.
  intros Hf Hm w1 log0. unfold process_message.
  unfold mbind at 1, M_bind at 1, bind at 1.
  rewrite (api_get_run _ _ _ Hf Hm).
  fold (subject_of (resource m)). fold (text_of (resource m)).
  fold w1.
  unfold mbind at 1, M_bind at 1, bind at 1, logging at 1.
  unfold mbind at 1, M_bind at 1, bind at 1.
  rewrite parse_github_email_run.
  destruct (re_search failure_pattern (text_of (resource m))) as [c|]; simpl.
  - unfold mbind at 1, M_bind at 1, bind at 1.
    unfold outcome, world_after, logged.
    destruct (check_workflow_status (group c 1) (group c 2) w1)
      as [[[e|[]] w2] l2]; simpl.
    + done.
    + unfold_M.
      destruct (archive_message service (id message) w2) as [[r w3] l3]; simpl.
      done.
    + unfold_M.
      destruct (mark_as_read service (id message) w2) as [[r w3] l3]; simpl.
      done.
  - unfold_M. unfold outcome, world_after, logged.
    destruct (mark_as_read service (id message) w1) as [[r w3] l3]; simpl.
    done.
Qed.

(** C3: a message the mailbox returns gets exactly one mutation. With no
    record extracted it is the mark-read request, and no status check is
    made; with a record and a passing status it is the archive request and
    no mark-read; with a record and a status that is not passing it is the
    mark-read request and no archive. *)
Theorem process_message_dispatch (service : Service) (message : MessageRef)
    (w : World) (m : StoredMessage) :
  env_get_fault env (trace w) (id message) = None →
  mailbox w !! id message = Some m →
  let w1 := record_call (CallGet (id message)) w in
  let after := world_after (process_message service message w) in
  match outcome (parse_github_email (text_of (resource m)) [] w1) with
  | inr None =>
      only_removes "UNREAD" (id message) w1 after ∧
      trace after
      = trace w ++ [CallGet (id message);
                    CallModify (id message) (remove_label "UNREAD")]
  | inr (Some d) =>
      let check := CallSubprocess (gh_argv (i_repo d) (i_workflow d)) in
      let w2 := record_call check w1 in
      match outcome (check_workflow_status (i_repo d) (i_workflow d) w1) with
      | inr true =>
          only_removes "INBOX" (id message) w2 after ∧
          trace after
          = trace w ++ [CallGet (id message); check;
                        CallModify (id message) (remove_label "INBOX")]
      | inr false =>
          only_removes "UNREAD" (id message) w2 after ∧
          trace after
          = trace w ++ [CallGet (id message); check;
                        CallModify (id message) (remove_label "UNREAD")]
      | inl _ => False
      end
  | inl _ => False
  end.
Proof.
  intros Hf Hm w1 after. unfold after.
  rewrite (process_message_run _ _ _ _ Hf Hm). fold w1.
  rewrite parse_github_email_run.
  destruct (re_search failure_pattern (text_of (resource m))) as [c|];
    rewrite outcome_triple; cbv zeta; cbv beta iota.
  - destruct (check_workflow_status_spec (group c 1) (group c 2) w1)
      as (b & l & Hc & _).
    cbn [i_repo i_workflow].
    rewrite Hc, !outcome_triple, !world_after_triple.
    destruct b; rewrite world_after_triple.
    + rewrite archive_message_world.
      split; [apply api_modify_only_removes|].
      rewrite api_modify_trace. simpl. by rewrite <- !app_assoc.
    + rewrite mark_as_read_world.
      split; [apply api_modify_only_removes|].
      rewrite api_modify_trace. simpl. by rewrite <- !app_assoc.
  - rewrite world_after_triple, mark_as_read_world.
    split; [apply api_modify_only_removes|].
    rewrite api_modify_trace. simpl. by rewrite <- !app_assoc.
Qed.

Lemma api_modify_error_world (msg_id : pystr) (body : ModifyBody) (w : World) (e : exn) :
  outcome (api_modify msg_id body w) = inl e →
  world_after (api_modify msg_id body w) = record_call (CallModify msg_id body) w.
Proof.
  unfold api_modify, outcome, world_after.
  destruct (env_modify_fault env (trace w) msg_id body); [done|].
  destruct (mailbox w !! msg_id); [discriminate|done].
Qed.

Lemma api_modify_faulty (msg_id : pystr) (body : ModifyBody) (w : World) (e : exn) :
  env_modify_fault env (trace w) msg_id body = Some e →
  outcome (api_modify msg_id body w) = inl e.
Proof. intros H. unfold api_modify, outcome. by rewrite H. Qed.

(** C8: when the mailbox answers every [modify] request for a message with
    [HttpError], [mark_as_read] and [archive_message] return normally after
    one request and one logged error, and the loop goes on: the round for the
    message makes its one [modify] request, returns normally with the
    mailbox unchanged, and the remaining messages are processed from
    there. *)
Theorem mutation_error_logged_not_retried (service : Service)
    (message : MessageRef) (rest : list MessageRef) (w : World)
    (m : StoredMessage) (status : Z) :
  env_get_fault env (trace w) (id message) = None →
  mailbox w !! id message = Some m →
  (∀ tr body, env_modify_fault env tr (id message) body = Some (HttpError status)) →
  (∀ w0, mark_as_read service (id message) w0
         = (inr tt,
            record_call (CallModify (id message) (remove_label "UNREAD")) w0,
            [(ERROR, Msg_mark_read_error (HttpError status))])) ∧
  (∀ w0, archive_message service (id message) w0
         = (inr tt,
            record_call (CallModify (id message) (remove_label "INBOX")) w0,
            [(ERROR, Msg_archive_error (HttpError status))])) ∧
  ∃ w' l calls body,
    process_message service message w = (inr tt, w', l) ∧
    mailbox w' = mailbox w ∧
    trace w' = trace w ++ CallGet (id message) :: calls
                 ++ [CallModify (id message) body] ∧
    (∀ c, c ∈ calls → ∃ argv, c = CallSubprocess argv) ∧
    for_each (message :: rest) (process_message service) w
    = (let '(r, w'', l') := for_each rest (process_message service) w' in
       (r, w'', l ++ l')).
Proof.
  intros Hf Hm Hfail.
  assert (Hread : ∀ w0, mark_as_read service (id message) w0
         = (inr tt,
            record_call (CallModify (id message) (remove_label "UNREAD")) w0,
            [(ERROR, Msg_mark_read_error (HttpError status))])).
  { intros w0. rewrite mark_as_read_run. cbv zeta.
    pose proof (api_modify_faulty _ _ w0 _ (Hfail (trace w0) (remove_label "UNREAD"))) as Ho.
    rewrite (api_modify_error_world _ _ _ _ Ho), Ho. done. }
  assert (Harch : ∀ w0, archive_message service (id message) w0
         = (inr tt,
            record_call (CallModify (id message) (remove_label "INBOX")) w0,
            [(ERROR, Msg_archive_error (HttpError status))])).
  { intros w0. rewrite archive_message_run. cbv zeta.
    pose proof (api_modify_faulty _ _ w0 _ (Hfail (trace w0) (remove_label "INBOX"))) as Ho.
    rewrite (api_modify_error_world _ _ _ _ Ho), Ho. done. }
  split; [done|]. split; [done|].
  assert (Hround : ∃ w' l calls body,
    process_message service message w = (inr tt, w', l) ∧
    mailbox w' = mailbox w ∧
    trace w' = trace w ++ CallGet (id message) :: calls
                 ++ [CallModify (id message) body] ∧
    (∀ c, c ∈ calls → ∃ argv, c = CallSubprocess argv)).
  { rewrite (process_message_run _ _ _ _ Hf Hm).
    destruct (re_search failure_pattern (text_of (resource m))) as [c|];
      cbv zeta.
    - destruct (check_workflow_status_spec (group c 1) (group c 2)
                  (record_call (CallGet (id message)) w)) as (b & l & Hc & _).
      rewrite Hc, !outcome_triple, !world_after_triple.
      destruct b; [rewrite Harch | rewrite Hread];
        rewrite outcome_triple, world_after_triple, logged_triple;
        eexists _, _, [_], _; (split; [reflexivity|]); (split; [done|]);
        (split; [simpl; by rewrite <- !app_assoc|]);
        intros ? ->%list_elem_of_singleton; eauto.
    - rewrite Hread, outcome_triple, world_after_triple, logged_triple.
      eexists _, _, [], _. split; [reflexivity|]. split; [done|].
      split; [simpl; by rewrite <- !app_assoc|].
      intros ? []%elem_of_nil. }
  destruct Hround as (w' & l & calls & body & Hrun & Hmb & Htr & Hcalls).
  exists w', l, calls, body. repeat split; try done.
  rewrite for_each_cons, Hrun. done.
Qed.

Lemma match_nonempty {A B} (l : list A) (a b : B) :
  l ≠ [] → match l with [] => a | _ :: _ => b end = b.
Proof. by destruct l. Qed.

Lemma api_get_error (msg_id : pystr) (w : World) (e : exn) :
  outcome (api_get msg_id w) = inl e →
  api_get msg_id w = (inl e, record_call (CallGet msg_id) w, []).
Proof.
  unfold api_get, external, outcome. simpl. by intros ->.
Qed.

(** C10: when fetching a message of the batch raises [HttpError], the
    messages before it have been processed, the error is logged by the
    handler around the whole loop, and [process_messages] returns with the
    failed fetch as its last call: none of the messages after it is fetched,
    checked or changed. *)
Theorem get_error_stops_batch (service : Service) (w w1 : World)
    (results : ListResponse) (before after : list MessageRef)
    (message : MessageRef) (l1 : list LogRecord) (status : Z) :
  env_list env (trace w) query = inr results →
  messages results = Some (before ++ message :: after) →
  for_each before (process_message service) (record_call (CallList query) w)
  = (inr tt, w1, l1) →
  outcome (api_get (id message) w1) = inl (HttpError status) →
  process_messages service w
  = (inr tt, record_call (CallGet (id message)) w1,
     (INFO, Msg_found (length (before ++ message :: after))) :: l1
       ++ [(ERROR, Msg_process_error (HttpError status))]).
Proof.
  intros Hlist Hmsgs Hbefore Hget.
  unfold process_messages, api_list.
  unfold try_except, external, mbind at 1, M_bind at 1, bind at 1.
  rewrite Hlist, Hmsgs. unfold default. cbn [from_option Datatypes.id].
  rewrite match_nonempty by (by destruct before).
  unfold mbind at 1, M_bind at 1, bind at 1, logging at 1.
  rewrite for_each_app, Hbefore, for_each_cons.
  unfold process_message at 1.
  unfold mbind at 1, M_bind at 1, bind at 1.
  rewrite (api_get_error _ _ _ Hget). simpl.
  by rewrite app_nil_r.
Qed.

(** ** The dry-run flag *)

(** What [main] does after its first log lines. *)
Lemma main_run (args : Args) (w : World) :
  main args w
  = (let '(r, w', l) :=
       (service ← get_gmail_service;
        match service with
        | Some s => process_messages s
        | None => mret tt
        end) w in
     (r, w',
      (INFO, Msg_starting (max_emails args))
      :: (if dry_run args then [(INFO, Msg_dry_run)] else []) ++ l)).
Proof.
  unfold main.
  unfold mbind at 1, M_bind at 1, bind at 1, logging at 1.
  unfold mbind at 1, M_bind at 1, bind at 1.
  destruct (dry_run args); unfold logging, mret, M_ret, ret;
    match goal with |- context [mbind ?f ?m w] =>
      destruct (mbind f m w) as [[r w'] l] end; reflexivity.
Qed.

(** C4: a run with [--dry-run] and a run without it, from the same world
    and against the same environment, end with the same result in the same
    world, having made the same calls in the same order, the [modify]
    requests among them; the logs differ by the one dry-run line. *)
Theorem dry_run_does_not_gate (n : Z) (w : World) :
  let dry := main {| max_emails := n; dry_run := true |} w in
  let wet := main {| max_emails := n; dry_run := false |} w in
  outcome dry = outcome wet ∧
  world_after dry = world_after wet ∧
  trace (world_after dry) = trace (world_after wet) ∧
  mailbox (world_after dry) = mailbox (world_after wet) ∧
  ∃ l, logged wet = (INFO, Msg_starting n) :: l ∧
       logged dry = (INFO, Msg_starting n) :: (INFO, Msg_dry_run) :: l.
Proof.
  cbv zeta. rewrite !main_run. cbn [dry_run max_emails].
  match goal with |- context [mbind ?f ?m w] =>
    destruct (mbind f m w) as [[r w'] l] end.
  rewrite !outcome_triple, !world_after_triple, !logged_triple.
  repeat split. by exists l.
Qed.

(** ** The pattern *)

Section Plus.
Context {A : Type} (p : char → bool) (k : pystr → option A).

(** A successful [a+] or [a+?] took a non-empty run of matching characters
    and the rest of the pattern matched what follows. *)
Lemma plus_greedy_Some (s : pystr) (r : A) :
  plus_greedy p s k = Some r →
  ∃ run rest, s = run ++ rest ∧ run ≠ [] ∧
    Forall (λ c, p c = true) run ∧ k rest = Some r.
Proof.
  revert r. induction s as [|c s IH]; intros r; simpl; [discriminate|].
  destruct (p c) eqn:Hc; [|discriminate].
  destruct (plus_greedy p s k) as [r'|] eqn:Hrec.
  - intros [= <-]. destruct (IH _ eq_refl) as (run & rest & -> & Hne & Hall & Hk).
    exists (c :: run), rest. repeat split; try done. by constructor.
  - intros Hk. exists [c], s. repeat split; try done. by repeat constructor.
Qed.

Lemma plus_greedy_complete (run rest : pystr) :
  run ≠ [] → Forall (λ c, p c = true) run → is_Some (k rest) →
  is_Some (plus_greedy p (run ++ rest) k).
Proof.
  induction run as [|c run IH]; [done|]. intros _ Hall [r Hk].
  apply Forall_cons in Hall as [Hc Hall]. simpl. rewrite Hc.
  destruct run as [|c' run].
  - simpl in *. destruct (plus_greedy p rest k); [eauto|]. rewrite Hk. eauto.
  - destruct (IH ltac:(done) Hall ltac:(eauto)) as [r' Hr']. rewrite Hr'. eauto.
Qed.

Lemma plus_lazy_Some (s : pystr) (r : A) :
  plus_lazy p s k = Some r →
  ∃ run rest, s = run ++ rest ∧ run ≠ [] ∧
    Forall (λ c, p c = true) run ∧ k rest = Some r ∧
    ∀ run' rest', s = run' ++ rest' → run' ≠ [] →
      length run' < length run → k rest' = None.
Proof.
  revert r. induction s as [|c s IH]; intros r; simpl; [discriminate|].
  destruct (p c) eqn:Hc; [|discriminate].
  destruct (k s) as [r'|] eqn:Hk.
  - intros [= <-]. exists [c], s. repeat split; try done.
    + by repeat constructor.
    + intros run' rest' _ Hne Hlen. destruct run'; simpl in *; [done|lia].
  - intros Hrec. destruct (IH _ Hrec) as (run & rest & -> & Hne & Hall & Hkr & Hmin).
    exists (c :: run), rest. repeat split; try done; [by constructor|].
    intros run' rest' Heq Hne' Hlen.
    destruct run' as [|c' run']; [done|]. simpl in *.
    injection Heq as <- Heq.
    destruct run' as [|c'' run'].
    + simpl in Heq. by subst rest'.
    + apply Hmin with (run' := c'' :: run'); [done|done|simpl in *; lia].
Qed.

Lemma plus_lazy_complete (run rest : pystr) :
  run ≠ [] → Forall (λ c, p c = true) run → is_Some (k rest) →
  is_Some (plus_lazy p (run ++ rest) k).
Proof.
  induction run as [|c run IH]; [done|]. intros _ Hall [r Hk].
  apply Forall_cons in Hall as [Hc Hall]. simpl. rewrite Hc.
  destruct (k (run ++ rest)) eqn:Hk'; [eauto|].
  destruct run as [|c' run].
  - simpl in *. congruence.
  - apply IH; eauto.
Qed.
End Plus.

(** A run of literals matches exactly itself. *)
Lemma rmatch_lit {A} (l s : pystr) (caps : captures)
    (k : pystr → captures → option A) (r : A) :
  rmatch (re_lit l) s caps k = Some r ↔ ∃ s', s = l ++ s' ∧ k s' caps = Some r.
Proof.
  revert s. induction l as [|c l IH]; intros s; simpl.
  - split; [eauto|]. by intros (s' & -> & Hk).
  - destruct s as [|c' s].
    + split; [discriminate|]. by intros (s' & ? & _).
    + destruct (N.eqb_spec c' c) as [->|Hne].
      * rewrite IH. split; intros (s' & Hs & Hk); exists s'; split; try done.
        -- by rewrite Hs.
        -- by injection Hs.
      * split; [discriminate|]. intros (s' & [= ? ?] & _). done.
Qed.

Lemma take_app_minus {A} (a b : list A) :
  take (length (a ++ b) - length b) (a ++ b) = a.
Proof.
  rewrite length_app. replace (length a + length b - length b) with (length a) by lia.
  by rewrite take_app_length.
Qed.

(** A match of the pattern at the start of a text: the text has the shape,
    the groups are the token and the workflow, and the workflow is the
    shortest that the terminator follows. *)
Lemma re_match_sound (s : pystr) (caps : captures) :
  re_match failure_pattern s = Some caps →
  ∃ o n W rest,
    s = shape o n W rest ∧ wordy o ∧ wordy n ∧ one_line W ∧
    caps = [(2, W); (1, o ++ lit "/" ++ n)] ∧
    ∀ W' rest', W' ≠ [] → W ++ lit " -" ++ rest = W' ++ lit " -" ++ rest' →
      length W ≤ length W'.
Proof.
  unfold re_match, failure_pattern. cbn [rmatch]. intros H.
  apply rmatch_lit in H as (s1 & -> & H).
  apply plus_greedy_Some in H as (o & r1 & -> & Ho & Hao & H).
  apply rmatch_lit in H as (s3 & -> & H).
  apply plus_greedy_Some in H as (n & r2 & -> & Hn & Han & H).
  apply rmatch_lit in H as (s5 & -> & H).
  apply plus_lazy_Some in H as (W & r3 & -> & HW & HaW & H & Hmin).
  apply rmatch_lit in H as (rest & -> & H).
  apply (inj Some) in H. subst caps.
  exists o, n, W, rest. split; [|split; [done|split; [done|split; [done|split]]]].
  - unfold shape. by rewrite <- !app_assoc.
  - f_equal; [by rewrite take_app_minus|]. f_equal. f_equal.
    rewrite (app_assoc o), (app_assoc (o ++ lit "/")), <- (app_assoc o).
    apply take_app_minus.
  - intros W' rest' HW' Heq.
    destruct (decide (length W' < length W)) as [Hlt|]; [|lia].
    specialize (Hmin W' (lit " -" ++ rest') Heq HW' Hlt).
    apply eq_None_not_Some in Hmin. destruct Hmin.
    eexists. apply rmatch_lit. eauto.
Qed.

Lemma rmatch_lit_complete {A} (l s' : pystr) (caps : captures)
    (k : pystr → captures → option A) :
  is_Some (k s' caps) → is_Some (rmatch (re_lit l) (l ++ s') caps k).
Proof. intros [r Hr]. exists r. apply rmatch_lit. eauto. Qed.

(** A text that has the shape matches. *)
Lemma re_match_complete (o n W rest : pystr) :
  wordy o → wordy n → one_line W →
  is_Some (re_match failure_pattern (shape o n W rest)).
Proof.
  intros [Ho Hao] [Hn Han] [HW HaW].
  unfold re_match, failure_pattern, shape. cbn [rmatch].
  rewrite <- !app_assoc.
  apply rmatch_lit_complete, plus_greedy_complete; [done|done|].
  apply rmatch_lit_complete, plus_greedy_complete; [done|done|].
  apply rmatch_lit_complete, plus_lazy_complete; [done|done|].
  apply rmatch_lit_complete. eauto.
Qed.

(** A run of characters of a class ends where the first character outside
    the class stands. *)
Lemma run_unique (p : char → bool) (a a' b b' : pystr) (c c' : char) :
  Forall (λ x, p x = true) a → Forall (λ x, p x = true) a' →
  p c = false → p c' = false →
  a ++ c :: b = a' ++ c' :: b' → a = a' ∧ c = c' ∧ b = b'.
Proof.
  intros Ha. revert a'. induction Ha as [|x a Hx Ha IH]; intros a' Ha' Hc Hc' Heq.
  - destruct Ha' as [|x' a' Hx' Ha']; simpl in *.
    + by injection Heq.
    + injection Heq as -> _. congruence.
  - destruct Ha' as [|x' a' Hx' Ha']; simpl in *.
    + injection Heq as -> _. congruence.
    + injection Heq as -> Heq. destruct (IH _ Ha' Hc Hc' Heq) as (-> & -> & ->).
      done.
Qed.

Lemma shape_unique (o n W rest o' n' W' rest' : pystr) :
  wordy o → wordy n → wordy o' → wordy n' →
  shape o n W rest = shape o' n' W' rest' →
  o = o' ∧ n = n' ∧ W ++ lit " -" ++ rest = W' ++ lit " -" ++ rest'.
Proof.
  intros [_ Ho] [_ Hn] [_ Ho'] [_ Hn']. unfold shape.
  rewrite <- !app_assoc. intros Heq.
  apply (inj (app (lit "["))) in Heq.
  change (lit "/" ++ ?x) with (chr "/" :: x) in Heq.
  apply (run_unique _ _ _ _ _ _ _ Ho Ho') in Heq as (-> & _ & Heq);
    [|reflexivity..].
  change (lit "] Run failed: " ++ ?x) with (chr "]" :: lit " Run failed: " ++ x) in Heq.
  apply (run_unique _ _ _ _ _ _ _ Hn Hn') in Heq as (-> & _ & Heq);
    [|reflexivity..].
  by apply (inj (app (lit " Run failed: "))) in Heq.
Qed.

(** [re.search] returns the match at the first offset that has one. *)
Lemma re_search_Some (r : regex) (s : pystr) (c : captures) :
  re_search r s = Some c →
  ∃ pre s', s = pre ++ s' ∧ re_match r s' = Some c ∧
    ∀ pre' s'', s = pre' ++ s'' → length pre' < length pre →
      re_match r s'' = None.
Proof.
  induction s as [|x s IH]; simpl.
  - destruct (re_match r []) eqn:Hm; [|discriminate]. intros [= <-].
    exists [], []. repeat split; try done. simpl. lia.
  - destruct (re_match r (x :: s)) eqn:Hm.
    + intros [= <-]. exists [], (x :: s). repeat split; try done. simpl. lia.
    + intros Hs. destruct (IH Hs) as (pre & s' & -> & Hs' & Hmin).
      exists (x :: pre), s'. repeat split; try done.
      intros pre' s'' Heq Hlen. destruct pre' as [|y pre'].
      * simpl in Heq. by subst s''.
      * injection Heq as <- Heq. apply (Hmin pre'); [done|simpl in Hlen; lia].
Qed.

Lemma re_search_None (r : regex) (s : pystr) :
  re_search r s = None → ∀ pre s', s = pre ++ s' → re_match r s' = None.
Proof.
  induction s as [|x s IH]; simpl.
  - destruct (re_match r []) eqn:Hm; [discriminate|]. intros _ pre s' Heq.
    symmetry in Heq. apply app_eq_nil in Heq as [_ ->]. done.
  - destruct (re_match r (x :: s)) eqn:Hm; [discriminate|].
    intros Hs pre s' Heq. destruct pre as [|y pre].
    + simpl in Heq. by subst s'.
    + injection Heq as _ Heq. by apply (IH Hs pre).
Qed.

(** What [re.search] finds for the pattern, in the vocabulary of the
    statements: the leftmost occurrence of the shape, with the shortest
    workflow there, or no occurrence. *)
Lemma re_search_failure_pattern (text : pystr) :
  match re_search failure_pattern text with
  | Some c =>
      ∃ i o n W, occurrence text i o n W ∧
        c = [(2, W); (1, o ++ lit "/" ++ n)] ∧
        ∀ j o' n' W', occurrence text j o' n' W' →
          i ≤ j ∧ (j = i → o' = o ∧ n' = n ∧ length W ≤ length W')
  | None => ∀ i o n W, ¬ occurrence text i o n W
  end.
Proof.
  destruct (re_search failure_pattern text) as [c|] eqn:Hs.
  - apply re_search_Some in Hs as (pre & s' & -> & Hm & Hfirst).
    apply re_match_sound in Hm as (o & n & W & rest & -> & Ho & Hn & HW & -> & Hmin).
    exists (length pre), o, n, W. split; [|split; [done|]].
    { repeat split; try done; try apply Ho; try apply Hn; try apply HW.
      by exists pre, rest. }
    intros j o' n' W' (Ho' & Hn' & HW' & pre' & rest' & Heq & <-).
    split.
    + destruct (decide (length pre' < length pre)) as [Hlt|]; [|lia].
      specialize (Hfirst _ _ Heq Hlt).
      destruct (re_match_complete o' n' W' rest' Ho' Hn' HW') as [? Hc].
      congruence.
    + intros Hlen. apply app_inj_1 in Heq as [-> Heq]; [|done].
      apply shape_unique in Heq as (-> & -> & Heq); try done.
      repeat split; try done. apply (Hmin W' rest'); [apply HW'|done].
  - intros i o n W (Ho & Hn & HW & pre & rest & -> & <-).
    pose proof (re_search_None _ _ Hs pre _ eq_refl) as Hnone.
    destruct (re_match_complete o n W rest Ho Hn HW) as [? Hc]. congruence.
Qed.









(** ** The extractor *)

(** C2, amended: [parse_github_email] never raises and leaves the world as
    it is. It returns [None] exactly when the text has no occurrence of
    [[o/n] Run failed: W -] with [o], [n] non-empty runs of word characters
    and hyphens and [W] non-empty and free of newlines (the terminator is a
    space and a hyphen; no space after the hyphen is asked for). Otherwise
    it returns the record of the leftmost occurrence, with the shortest
    workflow at that offset. *)
Theorem parse_github_email_leftmost_shortest (text body : pystr) (w : World) :
  ∃ r l,
    parse_github_email text body w = (inr r, w, l) ∧
    (r = None ↔ ∀ i o n W, ¬ occurrence text i o n W) ∧
    ∀ d, r = Some d ↔
      ∃ i o n W,
        occurrence text i o n W ∧
        (∀ j o' n' W', occurrence text j o' n' W' →
           i ≤ j ∧ (j = i → length W ≤ length W')) ∧
        d = {| i_type := lit "github_action_failure";
               i_repo := o ++ lit "/" ++ n;
               i_workflow := W;
               i_snippet := text |}.
Proof.
  rewrite parse_github_email_run.
  pose proof (re_search_failure_pattern text) as Hs.
  destruct (re_search failure_pattern text) as [c|].
  - destruct Hs as (i & o & n & W & Hocc & -> & Hmin).
    eexists _, _. split; [reflexivity|]. cbn [group Nat.eqb].
    split.
    { split; [discriminate|]. intros Hno. destruct (Hno _ _ _ _ Hocc). }
    intros d. split.
    + intros [= <-]. exists i, o, n, W. split; [done|]. split; [|done].
      intros j o' n' W' Hocc'. destruct (Hmin _ _ _ _ Hocc') as [Hle Hsame].
      split; [done|]. intros Hj. by apply Hsame.
    + intros (i' & o' & n' & W' & Hocc' & Hmin' & ->).
      destruct (Hmin _ _ _ _ Hocc') as [Hle Hsame].
      destruct (Hmin' _ _ _ _ Hocc) as [Hle' Hsame'].
      assert (i' = i) as -> by lia.
      destruct (Hsame eq_refl) as (-> & -> & HlenW).
      specialize (Hsame' eq_refl).
      destruct Hocc as (Ho & Hn & _ & pre & rest & -> & Hlen).
      destruct Hocc' as (_ & _ & _ & pre' & rest' & Heq & Hlen').
      apply app_inj_1 in Heq as [_ Heq]; [|lia].
      apply shape_unique in Heq as (_ & _ & Heq); try done.
      apply app_inj_1 in Heq as [-> _]; [done|lia].
  - eexists _, _. split; [reflexivity|]. split; [done|].
    intros d. split; [discriminate|].
    intros (i & o & n & W & Hocc & _). destruct (Hs _ _ _ _ Hocc).
Qed.


(** ** Authentication *)

Lemma world_eta (w : World) : {| mailbox := mailbox w; trace := trace w |} = w.
Proof. by destruct w. Qed.

Lemma returns_calls_only {A} (P : Call → Prop) (m : M A) :
  returns_with P m → calls_only P m.
Proof. intros H w. destruct (H w) as (a & calls & l & Hm & Hc). eauto 6. Qed.

Lemma returns_ret {A} (P : Call → Prop) (a : A) : returns_with P (mret a : M A).
Proof.
  forget_unused.
  intros w. exists a, [], []. rewrite app_nil_r, world_eta. by split.
Qed.

Lemma returns_logging (P : Call → Prop) (lvl : Level) (msg : LogMsg) :
  returns_with P (logging lvl msg).
Proof.
  forget_unused.
  intros w. exists tt, [], [(lvl, msg)]. rewrite app_nil_r, world_eta. by split.
Qed.

Lemma calls_only_external {A} (P : Call → Prop) (c : Call) (answer : World → exn + A) :
  P c → calls_only P (external c answer).
Proof.
  forget_unused.
  intros Hc w. exists (answer w), [c], []. split; [done|]. by constructor.
Qed.

Lemma returns_external {A} (P : Call → Prop) (c : Call) (answer : World → A) :
  P c → returns_with P (external c (λ w, inr (answer w))).
Proof.
  forget_unused.
  intros Hc w. exists (answer w), [c], []. split; [done|]. by constructor.
Qed.

Lemma calls_only_bind {A B} (P : Call → Prop) (m : M A) (f : A → M B) :
  calls_only P m → (∀ a, calls_only P (f a)) → calls_only P (m ≫= f).
Proof.
  forget_unused.
  intros Hm Hf w. destruct (Hm w) as (r & c1 & l1 & Hr & Hc1).
  unfold_M. rewrite Hr. destruct r as [e|a]; [eauto 6|].
  destruct (Hf a {| mailbox := mailbox w; trace := trace w ++ c1 |})
    as (r2 & c2 & l2 & Hr2 & Hc2).
  rewrite Hr2. simpl. exists r2, (c1 ++ c2), (l1 ++ l2).
  rewrite app_assoc. split; [done|]. by apply Forall_app.
Qed.

Lemma returns_bind {A B} (P : Call → Prop) (m : M A) (f : A → M B) :
  returns_with P m → (∀ a, returns_with P (f a)) → returns_with P (m ≫= f).
Proof.
  forget_unused.
  intros Hm Hf w. destruct (Hm w) as (a & c1 & l1 & Hr & Hc1).
  unfold_M. rewrite Hr.
  destruct (Hf a {| mailbox := mailbox w; trace := trace w ++ c1 |})
    as (b & c2 & l2 & Hr2 & Hc2).
  rewrite Hr2. simpl. exists b, (c1 ++ c2), (l1 ++ l2).
  rewrite app_assoc. split; [done|]. by apply Forall_app.
Qed.

(** [try: m  except Exception: h] returns when the handler does. *)
Lemma returns_try_except {A} (P : Call → Prop) (m : M A) (h : exn → M A) :
  calls_only P m → (∀ e, returns_with P (h e)) →
  returns_with P (try_except m is_Exception h).
Proof.
  forget_unused.
  intros Hm Hh w. destruct (Hm w) as (r & c1 & l1 & Hr & Hc1).
  unfold_M. rewrite Hr. destruct r as [e|a]; [|eauto 6]. simpl.
  destruct (Hh e {| mailbox := mailbox w; trace := trace w ++ c1 |})
    as (b & c2 & l2 & Hr2 & Hc2).
  rewrite Hr2. simpl. exists b, (c1 ++ c2), (l1 ++ l2).
  rewrite app_assoc. split; [done|]. by apply Forall_app.
Qed.

Lemma returns_for_each {A} (P : Call → Prop) (l : list A) (body : A → M unit) :
  (∀ x, returns_with P (body x)) → returns_with P (for_each l body).
Proof.
  intros Hbody. induction l as [|x l IH]; simpl.
  - apply returns_ret.
  - apply returns_bind; [apply Hbody | intros _; apply IH].
Qed.

(** One step of a proof that a computation returns, or makes only the calls
    it should. *)
Ltac returns_step :=
  first
    [ apply returns_ret
    | apply returns_logging
    | apply returns_external; exact I
    | apply returns_for_each; intros
    | apply returns_try_except; [|intros]
    | apply returns_bind; [|intros]
    | apply calls_only_external; exact I
    | apply calls_only_bind; [|intros]
    | apply returns_calls_only
    | match goal with
      | |- returns_with _ (if ?b then _ else _) => destruct b
      | |- returns_with _ (match ?x with _ => _ end) => destruct x
      | |- calls_only _ (if ?b then _ else _) => destruct b
      | |- calls_only _ (match ?x with _ => _ end) => destruct x
      end ].

Lemma get_gmail_service_returns : returns_with auth_call get_gmail_service.
Proof.
  unfold get_gmail_service, saved_token_step, refresh_step, oauth_step,
    path_exists, load_token, build, refresh, write_token, oauth_flow.
  repeat returns_step.
Qed.

(** X1: [get_gmail_service] never raises: whatever the files, the token
    endpoint, the OAuth flow and [build] do, it returns a service or [None],
    having made only authentication calls and left the mailbox alone. *)
Theorem get_gmail_service_never_raises (w : World) :
  ∃ service calls l,
    get_gmail_service w
    = (inr service, {| mailbox := mailbox w; trace := trace w ++ calls |}, l) ∧
    Forall auth_call calls.
Proof. apply get_gmail_service_returns. Qed.

(** Splits the goal along every answer of the environment the computation
    looks at. *)
Ltac split_on_answers :=
  repeat match goal with
         | |- context [match ?x with _ => _ end] =>
             lazymatch x with
             | context [match _ with _ => _ end] => fail
             | _ => destruct x eqn:?; simpl
             end
         | |- context [if ?x then _ else _] =>
             lazymatch x with
             | context [if _ then _ else _] => fail
             | context [match _ with _ => _ end] => fail
             | _ => destruct x eqn:?; simpl
             end
         end.

(** The list of the goal ends with the notice. *)
Ltac ends_with_notice :=
  repeat first
    [ by exists []
    | match goal with
      | |- ∃ l, ?x :: ?xs = l ++ _ =>
          cut (∃ l', xs = l' ++ no_credentials_notice);
          [ let l' := fresh in let H := fresh in
            intros [l' H]; exists (x :: l'); by rewrite H
          | ]
      end ].

(** The element of the goal is not in its list, a list written out. *)
Ltac absent_from_list :=
  let H := fresh in
  intros H;
  repeat (apply elem_of_cons in H as [H|H]; [discriminate H|]);
  by apply elem_of_nil in H.

Ltac unfold_auth :=
  unfold get_gmail_service, saved_token_step, refresh_step, oauth_step,
    path_exists, load_token, build, refresh, write_token, oauth_flow,
    outcome, world_after, logged;
  unfold_M; simpl.

(** X2: a service that [get_gmail_service] returns is the answer to its last
    call, a [build]; [None] is returned only after the no-credentials error
    and its eight lines of instructions, which are logged in no other
    case. *)
Theorem get_gmail_service_result (w : World) :
  match outcome (get_gmail_service w) with
  | inr (Some service) =>
      (∃ tr creds,
         trace (world_after (get_gmail_service w)) = tr ++ [CallBuild creds] ∧
         env_build env tr creds = inr service) ∧
      (ERROR, Msg_no_credentials) ∉ logged (get_gmail_service w)
  | inr None =>
      ∃ l, logged (get_gmail_service w) = l ++ no_credentials_notice
  | inl _ => False
  end.
Proof.
  unfold_auth. split_on_answers; try done.
  all: first
    [ split; [eexists _, _; split; [reflexivity|eassumption] | absent_from_list]
    | ends_with_notice ].
Qed.

Lemma calls_since_app (w : World) (mb : gmap pystr StoredMessage) (calls : list Call) :
  calls_since w {| mailbox := mb; trace := trace w ++ calls |} = calls.
Proof. forget_unused. unfold calls_since. simpl. apply drop_app_length. Qed.

(** Brings the traces of the goal and of the hypotheses to the form
    [trace w ++ calls], with [calls] written out. *)
Ltac flatten_traces :=
  unfold calls_since, record_call in *; simpl in *;
  repeat match goal with
         | H : context [(_ ++ _) ++ _] |- _ => rewrite <- app_assoc in H
         end;
  rewrite <- ?app_assoc; simpl in *; rewrite ?drop_app_length.

(** X3: the authentication asks the token endpoint for a refresh exactly
    when the token file exists and loads to credentials that are not valid,
    are expired and carry a non-empty refresh token, and then for those
    credentials. A token file that does not load, or a valid token whose
    [build] fails, is never refreshed. *)
Theorem refresh_only_for_expired_token (w : World) (c : Credentials) :
  CallRefresh c ∈ calls_since w (world_after (get_gmail_service w))
  ↔ env_path_exists env (trace w) TOKEN_FILE = true ∧
    env_load_token env (trace w ++ [CallPathExists TOKEN_FILE]) = inr c ∧
    valid c = false ∧ expired c = true ∧ has_refresh_token c = true.
Proof.
  unfold_auth. split_on_answers; flatten_traces.
  all: rewrite ?elem_of_cons, ?elem_of_nil.
  all: repeat match goal with
              | H : _ && _ = true |- _ => apply andb_true_iff in H as [? ?]
              | H : _ && _ = false |- _ => apply andb_false_iff in H
              end.
  all: naive_solver congruence.
Qed.

(** Looks for the place of a call in a list written out: [H] says that the
    list is [before], the call, and more. *)
Ltac locate_call H before :=
  repeat (destruct before as [|? before]; simpl in H;
          [ first [ discriminate H
                  | injection H as H ?; subst;
                    match goal with
                    | |- (∃ b0 c0, ?L = _ ∧ _) ∨ _ =>
                        let b := eval simpl in (removelast L) in
                        first [ left; exists b; eexists; split; [reflexivity|done]
                              | right; exists b; split; [reflexivity|done] ]
                    end ]
          | first [ discriminate H | injection H as ? H; subst ] ]).

(** X4: the token file is only ever rewritten with credentials just
    obtained: every write of the authentication comes directly after a
    refresh or an OAuth flow that returned the credentials written. *)
Theorem token_written_only_when_fresh (w : World) (before after : list Call)
    (c : Credentials) :
  calls_since w (world_after (get_gmail_service w))
  = before ++ CallWriteToken c :: after →
  (∃ b0 c0, before = b0 ++ [CallRefresh c0] ∧
            env_refresh env (trace w ++ b0) c0 = inr c)
  ∨ (∃ b0, before = b0 ++ [CallOAuthFlow] ∧
           env_oauth_flow env (trace w ++ b0) = inr c).
Proof.
  unfold_auth. split_on_answers; flatten_traces.
  all: intros H; locate_call H before.
Qed.

(** ** The run as a whole *)

(** X5: when the authentication gives no service, [main] ends normally
    where the authentication ended: no list query, no fetch, no status
    check, no [modify] request, the mailbox as it was. *)
Theorem main_without_service (args : Args) (w : World) :
  outcome (get_gmail_service w) = inr None →
  outcome (main args w) = inr tt ∧
  world_after (main args w) = world_after (get_gmail_service w) ∧
  mailbox (world_after (main args w)) = mailbox w ∧
  Forall auth_call (calls_since w (world_after (main args w))).
Proof.
  intros Hnone.
  destruct (get_gmail_service_returns w) as (r & calls & l & Hrun & Hcalls).
  rewrite Hrun in Hnone |- *. rewrite outcome_triple in Hnone.
  injection Hnone as ->.
  assert (Hmain : main args w
    = (inr tt, {| mailbox := mailbox w; trace := trace w ++ calls |},
       (INFO, Msg_starting (max_emails args))
       :: (if dry_run args then [(INFO, Msg_dry_run)] else []) ++ l ++ [])).
  { rewrite main_run. unfold mbind, M_bind, bind. by rewrite Hrun. }
  rewrite Hmain, outcome_triple, !world_after_triple, calls_since_app. done.
Qed.

(** X6: [--max-emails] changes nothing but the first log line: two runs that
    differ only in that number end with the same result in the same world,
    after the same calls. *)
Theorem max_emails_is_ignored (n1 n2 : Z) (dry : bool) (w : World) :
  let run1 := main {| max_emails := n1; dry_run := dry |} w in
  let run2 := main {| max_emails := n2; dry_run := dry |} w in
  outcome run1 = outcome run2 ∧
  world_after run1 = world_after run2 ∧
  ∃ l, logged run1 = (INFO, Msg_starting n1) :: l ∧
       logged run2 = (INFO, Msg_starting n2) :: l.
Proof.
  cbv zeta. rewrite !main_run. cbn [dry_run max_emails].
  match goal with |- context [mbind ?f ?m w] =>
    destruct (mbind f m w) as [[r w'] l] end.
  rewrite !outcome_triple, !world_after_triple, !logged_triple.
  repeat split. eauto.
Qed.

Lemma process_messages_no_HttpError (service : Service) (w : World) (status : Z) :
  outcome (process_messages service w) ≠ inl (HttpError status).
Proof.
  unfold process_messages. unfold try_except at 1.
  match goal with |- context [mbind ?f ?m w] =>
    destruct (mbind f m w) as [[[e|[]] w'] l] end; [|done].
  destruct e; simpl; done.
Qed.

(** X7: a run never ends with an [HttpError]: the authentication does not
    raise, and the loop hands on only exceptions of other classes. *)
Theorem main_never_ends_with_HttpError (args : Args) (service : Service)
    (w : World) (status : Z) :
  outcome (main args w) ≠ inl (HttpError status) ∧
  outcome (process_messages service w) ≠ inl (HttpError status).
Proof.
  split; [|apply process_messages_no_HttpError].
  rewrite main_run. unfold mbind at 1, M_bind at 1, bind at 1.
  destruct (get_gmail_service_returns w) as (r & calls & l & Hrun & _).
  rewrite Hrun. destruct r as [s|].
  - pose proof (process_messages_no_HttpError s
      {| mailbox := mailbox w; trace := trace w ++ calls |} status) as Hno.
    destruct (process_messages s _) as [[r' w'] l']. by rewrite outcome_triple in *.
  - done.
Qed.

(** ** Every message of the batch *)

Lemma same_messages_refl (w : World) : same_messages w w.
Proof. forget_unused. intros i m Hm. eauto. Qed.

Lemma same_messages_trans (w1 w2 w3 : World) :
  same_messages w1 w2 → same_messages w2 w3 → same_messages w1 w3.
Proof.
  forget_unused. intros H12 H23 i m Hm.
  destruct (H12 _ _ Hm) as (m2 & Hm2 & Hr2).
  destruct (H23 _ _ Hm2) as (m3 & Hm3 & Hr3).
  exists m3. split; [done|congruence].
Qed.

Lemma same_messages_mailbox (w w' : World) :
  mailbox w' = mailbox w → same_messages w w'.
Proof. forget_unused. intros Heq i m Hm. rewrite Heq. eauto. Qed.

Lemma api_modify_same_messages (msg_id : pystr) (l : string) (w : World) :
  same_messages w (world_after (api_modify msg_id (remove_label l) w)).
Proof.
  destruct (api_modify_only_removes msg_id l w) as (_ & _ & _ & _ & Hframe).
  intros i m Hm. destruct (Hframe _ _ Hm) as (m' & Hm' & Hr & _). eauto.
Qed.

(** What a [modify] request can raise when the service fails it with
    [HttpError] only. *)
Lemma api_modify_raises_HttpError (msg_id : pystr) (body : ModifyBody)
    (w : World) (e : exn) :
  mailbox_answers →
  outcome (api_modify msg_id body w) = inl e → is_HttpError e = true.
Proof.
  intros [_ Hmod]. unfold api_modify, outcome.
  destruct (Hmod (trace w) msg_id body) as [Hnone|[s Hsome]].
  - rewrite Hnone. destruct (mailbox w !! msg_id); simpl; [discriminate|].
    by intros [= <-].
  - rewrite Hsome. simpl. by intros [= <-].
Qed.

Lemma mark_as_read_returns (service : Service) (msg_id : pystr) (w : World) :
  mailbox_answers →
  ∃ l, mark_as_read service msg_id w
       = (inr tt, world_after (api_modify msg_id (remove_label "UNREAD") w), l).
Proof.
  intros Hok. rewrite mark_as_read_run. cbv zeta.
  pose proof (api_modify_raises_HttpError msg_id (remove_label "UNREAD") w) as He.
  destruct (outcome (api_modify msg_id (remove_label "UNREAD") w)) as [e|[]];
    [|eauto].
  specialize (He e Hok eq_refl). destruct e; [eauto|discriminate].
Qed.

Lemma archive_message_returns (service : Service) (msg_id : pystr) (w : World) :
  mailbox_answers →
  ∃ l, archive_message service msg_id w
       = (inr tt, world_after (api_modify msg_id (remove_label "INBOX") w), l).
Proof.
  intros Hok. rewrite archive_message_run. cbv zeta.
  pose proof (api_modify_raises_HttpError msg_id (remove_label "INBOX") w) as He.
  destruct (outcome (api_modify msg_id (remove_label "INBOX") w)) as [e|[]];
    [|eauto].
  specialize (He e Hok eq_refl). destruct e; [eauto|discriminate].
Qed.

(** One round of the loop, when the mailbox answers: a fetch, a status check
    if there is a record, one [modify] request. *)
Lemma process_message_round (service : Service) (message : MessageRef)
    (w : World) (m : StoredMessage) :
  mailbox_answers →
  mailbox w !! id message = Some m →
  ∃ w' l body,
    process_message service message w = (inr tt, w', l) ∧
    trace w' = trace w ++ CallGet (id message)
                 :: match record_of m with
                    | Some rw => [CallSubprocess (gh_argv rw.1 rw.2)]
                    | None => []
                    end ++ [CallModify (id message) body] ∧
    same_messages w w'.
Proof.
  intros Hok Hm. pose proof Hok as [Hget _].
  rewrite (process_message_run _ _ _ _ (Hget _ _) Hm). unfold record_of.
  destruct (re_search failure_pattern (text_of (resource m))) as [c|];
    cbv zeta; simpl.
  - destruct (check_workflow_status_spec (group c 1) (group c 2)
                (record_call (CallGet (id message)) w)) as (b & l & Hc & _).
    rewrite Hc, outcome_triple, !world_after_triple.
    destruct b.
    + destruct (archive_message_returns service (id message)
                  (record_call (CallSubprocess (gh_argv (group c 1) (group c 2)))
                     (record_call (CallGet (id message)) w)) Hok) as [l' Hr].
      rewrite Hr, outcome_triple, world_after_triple.
      eexists _, _, _. split; [reflexivity|].
      split; [rewrite api_modify_trace; simpl; by rewrite <- !app_assoc|].
      eapply same_messages_trans; [|apply api_modify_same_messages].
      by apply same_messages_mailbox.
    + destruct (mark_as_read_returns service (id message)
                  (record_call (CallSubprocess (gh_argv (group c 1) (group c 2)))
                     (record_call (CallGet (id message)) w)) Hok) as [l' Hr].
      rewrite Hr, outcome_triple, world_after_triple.
      eexists _, _, _. split; [reflexivity|].
      split; [rewrite api_modify_trace; simpl; by rewrite <- !app_assoc|].
      eapply same_messages_trans; [|apply api_modify_same_messages].
      by apply same_messages_mailbox.
  - destruct (mark_as_read_returns service (id message)
                (record_call (CallGet (id message)) w) Hok) as [l' Hr].
    rewrite Hr, outcome_triple, world_after_triple.
    eexists _, _, _. split; [reflexivity|].
    split; [rewrite api_modify_trace; simpl; by rewrite <- !app_assoc|].
    eapply same_messages_trans; [|apply api_modify_same_messages].
    by apply same_messages_mailbox.
Qed.

Lemma record_of_resource (m m' : StoredMessage) :
  resource m' = resource m → record_of m' = record_of m.
Proof. unfold record_of. by intros ->. Qed.

Lemma expected_checks_cons (mb : gmap pystr StoredMessage) (r : MessageRef)
    (msgs : list MessageRef) :
  expected_checks mb (r :: msgs)
  = match mb !! id r ≫= record_of with
    | Some rw => gh_argv rw.1 rw.2 :: expected_checks mb msgs
    | None => expected_checks mb msgs
    end.
Proof.
  forget_unused. unfold expected_checks. simpl.
  destruct (mb !! id r) as [m|]; simpl; [|done].
  by destruct (record_of m).
Qed.

Lemma expected_checks_same (w w' : World) (msgs : list MessageRef) :
  same_messages w w' →
  (∀ r, r ∈ msgs → is_Some (mailbox w !! id r)) →
  expected_checks (mailbox w') msgs = expected_checks (mailbox w) msgs.
Proof.
  intros Hsame Hin.
  induction msgs as [|r msgs IH]; [done|].
  rewrite !expected_checks_cons.
  destruct (Hin r) as [m Hm]; [by left|].
  destruct (Hsame _ _ Hm) as (m' & Hm' & Hr).
  rewrite Hm, Hm'. simpl. rewrite (record_of_resource _ _ Hr).
  rewrite IH; [done|]. intros r' Hr'. apply Hin. by right.
Qed.

(** The whole loop, when the mailbox answers and has the messages listed. *)
Lemma for_each_rounds (service : Service) (msgs : list MessageRef) (w : World) :
  mailbox_answers →
  (∀ r, r ∈ msgs → is_Some (mailbox w !! id r)) →
  ∃ w' l calls,
    for_each msgs (process_message service) w = (inr tt, w', l) ∧
    trace w' = trace w ++ calls ∧
    fetched calls = id <$> msgs ∧
    mutated calls = id <$> msgs ∧
    checked calls = expected_checks (mailbox w) msgs ∧
    same_messages w w'.
Proof.
  intros Hok. revert w. induction msgs as [|r msgs IH]; intros w Hin.
  - exists w, [], []. rewrite app_nil_r. repeat split; try done.
    apply same_messages_refl.
  - destruct (Hin r) as [m Hm]; [by left|].
    destruct (process_message_round service r w m Hok Hm)
      as (w1 & l1 & body & Hrun & Htr & Hsame).
    assert (Hin1 : ∀ r', r' ∈ msgs → is_Some (mailbox w1 !! id r')).
    { intros r' Hr'. destruct (Hin r') as [m' Hm']; [by right|].
      destruct (Hsame _ _ Hm') as (m'' & Hm'' & _). eauto. }
    destruct (IH w1 Hin1) as (w2 & l2 & calls & Hrest & Htr2 & Hf & Hmu & Hch & Hsame2).
    rewrite for_each_cons, Hrun, Hrest.
    eexists _, _, _. split; [reflexivity|].
    split; [by rewrite Htr2, Htr, <- app_assoc|].
    unfold fetched, mutated, checked in *.
    rewrite (expected_checks_same w w1) in Hch
      by (done || (intros; apply Hin; by right)).
    rewrite expected_checks_cons, Hm. simpl.
    rewrite !omap_app, Hf, Hmu, Hch.
    split; [|split; [|split]].
    + by destruct (record_of m).
    + by destruct (record_of m).
    + by destruct (record_of m).
    + by eapply same_messages_trans.
Qed.

Lemma process_messages_rounds (service : Service) (w : World)
    (results : ListResponse) :
  mailbox_answers →
  env_list env (trace w) query = inr results →
  (∀ r, r ∈ default [] (messages results) → is_Some (mailbox w !! id r)) →
  let w' := world_after (process_messages service w) in
  outcome (process_messages service w) = inr tt ∧
  fetched (calls_since w w') = id <$> default [] (messages results) ∧
  mutated (calls_since w w') = id <$> default [] (messages results) ∧
  checked (calls_since w w') = expected_checks (mailbox w) (default [] (messages results)).
Proof.
  intros Hok Hlist Hin.
  assert (Hpm : ∃ mb lg calls,
    process_messages service w
    = (inr tt, {| mailbox := mb; trace := trace w ++ CallList query :: calls |}, lg) ∧
    fetched calls = id <$> default [] (messages results) ∧
    mutated calls = id <$> default [] (messages results) ∧
    checked calls = expected_checks (mailbox w) (default [] (messages results))).
  { unfold process_messages, api_list.
    unfold try_except, external, mbind at 1, M_bind at 1, bind at 1.
    rewrite Hlist.
    destruct (default [] (messages results)) as [|r msgs] eqn:Hmsgs.
    - exists (mailbox w), [(INFO, Msg_no_new_failures)], []. done.
    - destruct (for_each_rounds service (r :: msgs)
                  (record_call (CallList query) w) Hok Hin)
        as (w1 & l & calls & Hrun & Htr & Hf & Hmu & Hch & _).
      unfold mbind at 1, M_bind at 1, bind at 1, logging at 1.
      rewrite Hrun. simpl.
      exists (mailbox w1), ((INFO, Msg_found (S (length msgs))) :: l), calls.
      split; [|done]. destruct w1 as [mb tr]. simpl in *.
      by rewrite Htr, <- app_assoc. }
  destruct Hpm as (mb & lg & calls & Hpm & Hf & Hmu & Hch).
  cbv zeta. rewrite Hpm, outcome_triple, world_after_triple, calls_since_app.
  done.
Qed.

(** X8: when the mailbox answers every [get], fails [modify] requests with
    [HttpError] only and has the messages the list names, the run returns
    normally and every listed message is fetched once and sent one [modify]
    request, in the order of the list: nothing is skipped, nothing is
    capped, and a message listed twice is handled twice. *)
Theorem every_listed_message_is_processed (service : Service) (w : World)
    (results : ListResponse) :
  mailbox_answers →
  env_list env (trace w) query = inr results →
  (∀ r, r ∈ default [] (messages results) → is_Some (mailbox w !! id r)) →
  let w' := world_after (process_messages service w) in
  outcome (process_messages service w) = inr tt ∧
  fetched (calls_since w w') = id <$> default [] (messages results) ∧
  mutated (calls_since w w') = id <$> default [] (messages results).
Proof.
  intros Hok Hlist Hin.
  destruct (process_messages_rounds service w results Hok Hlist Hin)
    as (Ho & Hf & Hm & _). done.
Qed.

(** X9: under the same conditions, [gh] is run once for each listed message
    that yields a record, with that record's repository and workflow, in the
    order of the list: the status of a workflow is asked again for every
    message that names it. *)
Theorem status_is_checked_per_message (service : Service) (w : World)
    (results : ListResponse) :
  mailbox_answers →
  env_list env (trace w) query = inr results →
  (∀ r, r ∈ default [] (messages results) → is_Some (mailbox w !! id r)) →
  checked (calls_since w (world_after (process_messages service w)))
  = expected_checks (mailbox w) (default [] (messages results)).
Proof.
  intros Hok Hlist Hin.
  destruct (process_messages_rounds service w results Hok Hlist Hin)
    as (_ & _ & _ & Hc). done.
Qed.

(** ** Edges of the loop, of the status check and of the extractor *)

(** X10: when the list response has no [messages] key, or an empty list
    under it, [process_messages] logs that there is nothing new and returns
    with the list query as its only call. *)
Theorem nothing_listed (service : Service) (w : World) (results : ListResponse) :
  env_list env (trace w) query = inr results →
  default [] (messages results) = [] →
  process_messages service w
  = (inr tt, record_call (CallList query) w, [(INFO, Msg_no_new_failures)]).
Proof.
  intros Hlist Hempty. unfold process_messages, api_list. unfold_M.
  rewrite Hlist. simpl. rewrite Hempty. reflexivity.
Qed.

(** X11: [check_workflow_status] logs nothing exactly when nothing is raised
    inside its [try]: a non-zero exit status, an empty run list and a first
    run that is an object with any conclusion pass without a log record. In
    every other case it logs one ERROR record and returns [False]. *)
Theorem check_workflow_status_logging (repo workflow_name : pystr) (w : World) :
  (logged (check_workflow_status repo workflow_name w) = []
   ↔ check_raises_nothing repo workflow_name w) ∧
  (logged (check_workflow_status repo workflow_name w) = []
   ∨ ∃ e, check_workflow_status repo workflow_name w
          = (inr false,
             record_call (CallSubprocess (gh_argv repo workflow_name)) w,
             [(ERROR, Msg_status_error e)])).
Proof.
  assert (Hinv : ∀ P : Prop,
    (∀ result,
       env_subprocess env (trace w) (gh_argv repo workflow_name) = inr result →
       (returncode result ≠ 0%Z
        ∨ ∃ runs, json_loads (stdout result) = inr runs ∧
            (truthy runs = false ∨ ∃ d rest, runs = PList (PDict d :: rest))) →
       P) →
    check_raises_nothing repo workflow_name w → P).
  { intros P HP (result & Hr & Hc). eauto. }
  assert (Hintro : ∀ result,
       env_subprocess env (trace w) (gh_argv repo workflow_name) = inr result →
       (returncode result ≠ 0%Z
        ∨ ∃ runs, json_loads (stdout result) = inr runs ∧
            (truthy runs = false ∨ ∃ d rest, runs = PList (PDict d :: rest))) →
       check_raises_nothing repo workflow_name w).
  { intros result Hr Hc. by exists result. }
  unfold check_workflow_status, subprocess_run, logged. unfold_M.
  destruct (env_subprocess env (trace w) (gh_argv repo workflow_name))
    as [e|result] eqn:Hrun; simpl.
  { split; [|eauto]. split; [discriminate|].
    apply Hinv. intros; congruence. }
  specialize (Hintro result eq_refl).
  destruct (returncode result =? 0)%Z eqn:Hrc; simpl.
  2:{ apply Z.eqb_neq in Hrc. split; [|by left]. split; [auto|done]. }
  apply Z.eqb_eq in Hrc.
  assert (Hinv' : ∀ P : Prop,
    (∀ runs, json_loads (stdout result) = inr runs →
       (truthy runs = false ∨ ∃ d rest, runs = PList (PDict d :: rest)) → P) →
    check_raises_nothing repo workflow_name w → P).
  { intros P HP. apply Hinv. intros r [= <-] [Hne|(runs & Hj & Hc)]; [done|eauto]. }
  clear Hinv.
  destruct (json_loads (stdout result)) as [e|runs] eqn:Hjson; simpl.
  { split; [|eauto]. split; [discriminate|].
    apply Hinv'. intros; congruence. }
  assert (Hinv'' : ∀ P : Prop,
    ((truthy runs = false ∨ ∃ d rest, runs = PList (PDict d :: rest)) → P) →
    check_raises_nothing repo workflow_name w → P).
  { intros P HP. apply Hinv'. intros r [= <-]. done. }
  assert (Hintro' :
    (truthy runs = false ∨ ∃ d rest, runs = PList (PDict d :: rest)) →
    check_raises_nothing repo workflow_name w).
  { intros Hc. apply Hintro. right. eauto. }
  clear Hinv' Hintro.
  destruct runs as [|b|z|f|s|l|d]; simpl in *.
  - split; [|by left]. split; [auto|done].
  - destruct b; simpl.
    + split; [|eauto]. split; [discriminate|].
      apply Hinv''. intros [?|(?&?&?)]; discriminate.
    + split; [|by left]. split; [auto|done].
  - destruct (z =? 0)%Z; simpl.
    + split; [|by left]. split; [auto|done].
    + split; [|eauto]. split; [discriminate|].
      apply Hinv''. intros [?|(?&?&?)]; discriminate.
  - destruct f; simpl;
      first [ by (split; [|by left]; split; [auto|done])
            | (split; [|eauto]); (split; [discriminate|]);
              apply Hinv''; intros [?|(?&?&?)]; discriminate ].
  - destruct s as [|c s]; simpl.
    + split; [|by left]. split; [auto|done].
    + split; [|eauto]. split; [discriminate|].
      apply Hinv''. intros [?|(?&?&?)]; discriminate.
  - destruct l as [|first rest]; simpl.
    { split; [|by left]. split; [auto|done]. }
    destruct first as [| | | | |?|d]; simpl;
      try ((split; [|eauto]); (split; [discriminate|]);
           apply Hinv''; intros [?|(?&?&?)]; discriminate).
    split; [|by left]. split; [eauto|done].
  - destruct (bool_decide (d = ∅)) eqn:Hd; simpl.
    { split; [|by left]. split; [auto|done]. }
    apply bool_decide_eq_false in Hd.
    destruct (0 <? Z.of_nat (size d))%Z eqn:Hsz; simpl.
    + split; [|eauto]. split; [discriminate|].
      apply Hinv''. intros [?|(?&?&?)]; discriminate.
    + apply Z.ltb_ge in Hsz. destruct Hd. apply map_size_empty_inv. lia.
Qed.

Lemma re_match_needs_bracket (c : char) (s : pystr) :
  c ≠ chr "[" → re_match failure_pattern (c :: s) = None.
Proof.
  intros Hc. apply eq_None_not_Some. intros [caps H].
  unfold re_match, failure_pattern in H. cbn [rmatch] in H.
  apply rmatch_lit in H as (s1 & Hs & _). injection Hs as -> _. done.
Qed.

Lemma re_search_skip (pre s : pystr) :
  chr "[" ∉ pre →
  re_search failure_pattern (pre ++ s) = re_search failure_pattern s.
Proof.
  induction pre as [|c pre IH]; [done|]. intros Hnot.
  apply not_elem_of_cons in Hnot as [Hc Hpre].
  change ((c :: pre) ++ s) with (c :: (pre ++ s)).
  cbn [re_search]. rewrite re_match_needs_bracket by done. by apply IH.
Qed.

(** X12: text in front of the first opening bracket does not count: with or
    without it the extractor finds the same repository and workflow, or
    nothing. *)
Theorem text_before_first_bracket_is_ignored (pre text body : pystr) (w : World) :
  chr "[" ∉ pre →
  ∃ r1 r2,
    outcome (parse_github_email (pre ++ text) body w) = inr r1 ∧
    outcome (parse_github_email text body w) = inr r2 ∧
    names r1 = names r2 ∧
    logged (parse_github_email (pre ++ text) body w)
    = logged (parse_github_email text body w).
Proof.
  intros Hpre. rewrite !parse_github_email_run, (re_search_skip _ _ Hpre).
  destruct (re_search failure_pattern text); eexists _, _; done.
Qed.

(** X13: the subject is the value of a header named exactly [Subject]; a
    message that has none is judged on its snippet alone. *)
Theorem no_subject_header_leaves_the_snippet (m : StoredMessage) :
  first_header_value (lit "Subject")
    (default [] (headers (default {| headers := None |} (payload (resource m)))))
  = None →
  text_of (resource m) = lit "Sin Asunto " ++ default [] (snippet (resource m)) ∧
  record_of m
  = (λ c, (group c 1, group c 2))
      <$> re_search failure_pattern (default [] (snippet (resource m))).
Proof.
  intros Hnone. unfold record_of, text_of, subject_of. rewrite Hnone.
  split; [done|]. simpl default at 1.
  rewrite (app_assoc (lit "Sin Asunto")), re_search_skip; [done|].
  absent_from_list.
Qed.

(** *** What follows a match *)

Lemma wordy_no_open (s : pystr) :
  Forall (λ c, atom_matches word_or_hyphen c = true) s → chr "[" ∉ s.
Proof.
  intros Hall Hin. rewrite Forall_forall in Hall.
  specialize (Hall _ Hin). discriminate Hall.
Qed.

Lemma wordy_one_line (s : pystr) :
  Forall (λ c, atom_matches word_or_hyphen c = true) s →
  Forall (λ c, atom_matches A_any c = true) s.
Proof.
  intros Hall. eapply Forall_impl; [exact Hall|]. intros c Hc. simpl.
  destruct (N.eqb_spec c 10) as [->|]; [discriminate Hc|done].
Qed.

(** The shape up to the workflow, with a one-line text in front, is one
    line. *)
Lemma shape_head_one_line (j o n W : pystr) :
  Forall (λ c, atom_matches A_any c = true) j →
  wordy o → wordy n → one_line W →
  one_line (j ++ lit "[" ++ (o ++ lit "/" ++ n) ++ lit "] Run failed: " ++ W).
Proof.
  intros Hj [_ Ho] [_ Hn] [_ HW]. split.
  - by destruct j.
  - repeat first [ done
                 | apply Forall_app; split
                 | by apply wordy_one_line
                 | by repeat constructor ].
Qed.

(** A match stays what it is when text is added after it. *)
Lemma re_match_app (s suf : pystr) (c : captures) :
  re_match failure_pattern s = Some c →
  re_match failure_pattern (s ++ suf) = Some c.
Proof.
  intros H.
  apply re_match_sound in H as (o & n & W & rest & -> & Ho & Hn & HW & -> & Hmin).
  assert (Hs : shape o n W rest ++ suf = shape o n W (rest ++ suf)).
  { unfold shape. by rewrite <- !app_assoc. }
  rewrite Hs.
  destruct (re_match_complete o n W (rest ++ suf) Ho Hn HW) as [c2 Hc2].
  rewrite Hc2. f_equal.
  apply re_match_sound in Hc2
    as (o2 & n2 & W2 & rest2 & Heq & Ho2 & Hn2 & HW2 & -> & Hmin2).
  apply shape_unique in Heq as (<- & <- & Heq); try done.
  assert (Hle : length W2 ≤ length W) by (apply (Hmin2 W (rest ++ suf)); [apply HW|done]).
  assert (Hge : length W ≤ length W2).
  { destruct (decide (length W2 < length W)) as [Hlt|]; [|lia].
    apply app_eq_inv in Heq as [(j & HWj & Hj)|(j & HWj & Hj)].
    - assert (Hjne : j ≠ []).
      { intros ->. rewrite app_nil_r in HWj. subst. lia. }
      destruct j as [|c0 j]; [done|].
      injection Hj as <- Hj. destruct j as [|c1 j].
      { simpl in Hj. discriminate Hj. }
      injection Hj as <- Hj.
      apply (Hmin W2 (j ++ lit " -" ++ rest)); [apply HW2|].
      rewrite HWj, <- !app_assoc. done.
    - subst W2. rewrite length_app in Hlt. lia. }
  apply app_inj_1 in Heq as [-> _]; [done|lia].
Qed.

Lemma cons_eq_inv {A} (x y : A) (l k : list A) :
  x :: l = y :: k → x = y ∧ l = k.
Proof. by intros [= -> ->]. Qed.

(** A position without a match, before one that has a match, stays without
    one when text is added at the end. *)
Lemma re_match_app_None (k s' suf : pystr) :
  k ≠ [] →
  re_match failure_pattern (k ++ s') = None →
  is_Some (re_match failure_pattern s') →
  re_match failure_pattern ((k ++ s') ++ suf) = None.
Proof.
  intros Hk Hnone [c' Hc']. apply eq_None_not_Some. intros [c2 Hc2].
  apply re_match_sound in Hc'
    as (o' & n' & W' & rest' & -> & Ho' & Hn' & HW' & _ & _).
  apply re_match_sound in Hc2
    as (o & n & W & rest & Heq & Ho & Hn & HW & _ & _).
  assert (Hfound : ∀ W0 rest0, one_line W0 →
            k ++ shape o' n' W' rest' = shape o n W0 rest0 → False).
  { intros W0 rest0 HW0 Hs.
    destruct (re_match_complete o n W0 rest0 Ho Hn HW0) as [? Hc].
    rewrite <- Hs in Hc. congruence. }
  assert (Hnob : ∀ a b, (o ++ lit "/" ++ n) ++ lit "] Run failed: " ≠ a ++ chr "[" :: b).
  { intros a b Hab. destruct Ho as [_ Ho], Hn as [_ Hn].
    pose proof (wordy_no_open _ Ho) as Hoo. pose proof (wordy_no_open _ Hn) as Hon.
    assert (Hin : chr "[" ∈ (o ++ lit "/" ++ n) ++ lit "] Run failed: ").
    { rewrite Hab, elem_of_app, elem_of_cons. auto. }
    rewrite !elem_of_app in Hin. destruct Hin as [[?|[Hin|?]]|Hin]; try done.
    - revert Hin. absent_from_list.
    - revert Hin. absent_from_list. }
  assert (Hcase : ∃ j,
             k = (lit "[" ++ (o ++ lit "/" ++ n) ++ lit "] Run failed: ") ++ j ∧
             W ++ lit " -" ++ rest = j ++ shape o' n' W' rest' ++ suf).
  { unfold shape in Heq at 2.
    rewrite (app_assoc (lit "[")), (app_assoc (lit "[" ++ _)) in Heq.
    rewrite <- (app_assoc k) in Heq.
    apply app_eq_inv in Heq as [(j & Hkj & Hj)|(j & Hhd & Hj)].
    - exists j. rewrite Hkj, <- !app_assoc. done.
    - destruct j as [|c1 j].
      + rewrite app_nil_r in Hhd. exists []. rewrite <- Hhd, <- !app_assoc.
        split; [by rewrite app_nil_r|]. rewrite app_nil_l in Hj. by rewrite <- Hj.
      + exfalso. destruct k as [|c0 k]; [done|].
        assert (c1 = chr "[") as ->.
        { unfold shape in Hj. rewrite <- !app_assoc in Hj.
          by apply cons_eq_inv in Hj as [<- _]. }
        rewrite <- !app_assoc in Hhd.
        apply cons_eq_inv in Hhd as [_ Hhd].
        apply (Hnob k j). rewrite <- !app_assoc. exact Hhd. }
  destruct Hcase as (j & -> & Hj).
  assert (Hkeep : ∀ x, ((lit "[" ++ (o ++ lit "/" ++ n) ++ lit "] Run failed: ") ++ x)
                       = lit "[" ++ (o ++ lit "/" ++ n) ++ lit "] Run failed: " ++ x).
  { intros x. by rewrite <- !app_assoc. }
  apply app_eq_inv in Hj as [(i & HWi & Hi)|(i & Hji & Hi)].
  - (* the workflow of the new match reaches the later match *)
    destruct HW as [_ HW]. rewrite HWi in HW.
    apply Forall_app in HW as [Hjl _].
    apply (Hfound (j ++ lit "[" ++ (o' ++ lit "/" ++ n') ++ lit "] Run failed: " ++ W')
             rest').
    + by apply shape_head_one_line.
    + unfold shape. rewrite <- !app_assoc. done.
  - (* the new match ends before the later match *)
    destruct i as [|c0 i].
    + rewrite app_nil_r in Hji. subst j.
      apply (Hfound (W ++ lit "[" ++ (o' ++ lit "/" ++ n') ++ lit "] Run failed: " ++ W')
               rest').
      * apply shape_head_one_line; try done.
      * unfold shape. rewrite <- !app_assoc. done.
    + assert (∃ i', c0 :: i = lit " -" ++ i') as [i' Hi'].
      { change (lit " -" ++ rest) with (chr " " :: chr "-" :: rest) in Hi.
        apply cons_eq_inv in Hi as [<- Hi].
        destruct i as [|c1 i].
        - unfold shape in Hi. apply cons_eq_inv in Hi as [Hc _]. discriminate Hc.
        - apply cons_eq_inv in Hi as [<- _]. by exists i. }
      rewrite Hi' in Hji. subst j.
      apply (Hfound W (i' ++ shape o' n' W' rest')); [done|].
      unfold shape. rewrite <- !app_assoc. done.
Qed.

Lemma re_search_intro (r : regex) (pre s' : pystr) (c : captures) :
  re_match r s' = Some c →
  (∀ pre' s'', pre ++ s' = pre' ++ s'' → length pre' < length pre →
     re_match r s'' = None) →
  re_search r (pre ++ s') = Some c.
Proof.
  intros Hm. induction pre as [|x pre IH]; intros Hfirst.
  - simpl. destruct s'; simpl; by rewrite Hm.
  - change ((x :: pre) ++ s') with (x :: (pre ++ s')). cbn [re_search].
    rewrite (Hfirst [] (x :: pre ++ s')) by (done || simpl; lia).
    apply IH. intros pre' s'' Heq Hlen.
    apply (Hfirst (x :: pre')); [simpl; by f_equal|simpl; lia].
Qed.

(** [re.search] finds the same match when text is added at the end. *)
Lemma re_search_app (text suf : pystr) (c : captures) :
  re_search failure_pattern text = Some c →
  re_search failure_pattern (text ++ suf) = Some c.
Proof.
  intros Hs. apply re_search_Some in Hs as (pre & s' & -> & Hm & Hfirst).
  rewrite <- app_assoc. apply re_search_intro; [by apply re_match_app|].
  intros pre' s'' Heq Hlen.
  apply app_eq_inv in Heq as [(k & Hk & Hs'')|(k & Hk & Hs'')].
  - subst pre. destruct k as [|x k]; [rewrite app_nil_r in Hlen; lia|].
    subst s''. rewrite app_assoc.
    apply re_match_app_None; [done| |eauto].
    apply (Hfirst pre'); [by rewrite <- app_assoc|].
    rewrite length_app. simpl. lia.
  - subst pre'. rewrite length_app in Hlen. lia.
Qed.

(** X14: what comes after the first match does not count: once a text
    yields a record, the text with anything added at its end yields the
    same repository and workflow. So a subject that yields a record decides,
    whatever the snippet is. *)
Theorem text_after_the_match_is_ignored (text suf body : pystr) (w : World)
    (d : IssueData) :
  outcome (parse_github_email text body w) = inr (Some d) →
  outcome (parse_github_email (text ++ suf) body w)
  = inr (Some {| i_type := i_type d;
                 i_repo := i_repo d;
                 i_workflow := i_workflow d;
                 i_snippet := text ++ suf |}).
Proof.
  rewrite !parse_github_email_run.
  destruct (re_search failure_pattern text) as [c|] eqn:Hs;
    rewrite outcome_triple; [|discriminate].
  intros [= <-]. by rewrite (re_search_app _ suf _ Hs).
Qed.

(** X15: an exception of another class than [HttpError] raised by the list
    query is caught nowhere: the run ends with it, the list query being its
    only call after the authentication. *)
Theorem other_exception_ends_the_run (args : Args) (w : World)
    (service : Service) (cls : pystr) :
  outcome (get_gmail_service w) = inr (Some service) →
  env_list env (trace (world_after (get_gmail_service w))) query
  = inl (OtherException cls) →
  outcome (main args w) = inl (OtherException cls) ∧
  calls_since (world_after (get_gmail_service w)) (world_after (main args w))
  = [CallList query].
Proof.
  intros Hauth Hlist.
  destruct (get_gmail_service w) as [[r w1] l] eqn:Hrun.
  rewrite outcome_triple in Hauth. rewrite world_after_triple in Hlist |- *.
  subst r.
  assert (Hmain : main args w
    = (inl (OtherException cls), record_call (CallList query) w1,
       (INFO, Msg_starting (max_emails args))
       :: (if dry_run args then [(INFO, Msg_dry_run)] else []) ++ l ++ [])).
  { rewrite main_run. unfold mbind, M_bind, bind. rewrite Hrun.
    by rewrite (list_other_exception_propagates service w1 cls Hlist). }
  rewrite Hmain, outcome_triple, world_after_triple. split; [done|].
  unfold calls_since, record_call. simpl. apply drop_app_length.
Qed.

(** X16: the subject is taken from the first header whose name is exactly
    [Subject]: headers before it with other names, or the same name in
    another case, and all headers after it do not count. *)
Theorem first_subject_header_counts (before after : list Header) (h : Header)
    (name : pystr) :
  Forall (λ h', h_name h' ≠ name) before →
  h_name h = name →
  first_header_value name (before ++ h :: after) = Some (h_value h).
Proof.
  forget_unused. intros Hbefore Hh.
  induction Hbefore as [|h' before Hne _ IH]; simpl.
  - by rewrite bool_decide_eq_true_2.
  - by rewrite bool_decide_eq_false_2.
Qed.

End Handler.

(** ** The statements at work on the sample mailbox *)

Ltac not_in_list :=
  let H := fresh in
  intros H;
  repeat (apply elem_of_cons in H as [H|H]; [discriminate H|]);
  by apply elem_of_nil in H.

(** The three end-to-end scenarios: a fixed workflow, a workflow that still
    fails, a subject the extractor does not recognise. *)
Lemma process_message_dispatch_witness :
  (env_get_fault passing_env (trace sample_world) (lit "m1") = None ∧
   mailbox sample_world !! lit "m1" = Some failed_run_message ∧
   trace (world_after (process_message sample_isalnum sample_json_loads
                         passing_env sample_service (ref "m1") sample_world))
   = [CallGet (lit "m1");
      CallSubprocess (gh_argv (lit "iberi22/domus-otec") (lit "CI"));
      CallModify (lit "m1") (remove_label "INBOX")]) ∧
  (trace (world_after (process_message sample_isalnum sample_json_loads
                         failing_env sample_service (ref "m1") sample_world))
   = [CallGet (lit "m1");
      CallSubprocess (gh_argv (lit "iberi22/domus-otec") (lit "CI"));
      CallModify (lit "m1") (remove_label "UNREAD")]) ∧
  (trace (world_after (process_message sample_isalnum sample_json_loads
                         passing_env sample_service (ref "m3") sample_world))
   = [CallGet (lit "m3"); CallModify (lit "m3") (remove_label "UNREAD")]).
Proof.
  split; [|split].
  - split; [reflexivity|]. split; [reflexivity|].
    exact (proj2 (process_message_dispatch sample_isalnum sample_json_loads
                    passing_env sample_service (ref "m1") sample_world
                    failed_run_message eq_refl eq_refl)).
  - exact (proj2 (process_message_dispatch sample_isalnum sample_json_loads
                    failing_env sample_service (ref "m1") sample_world
                    failed_run_message eq_refl eq_refl)).
  - exact (proj2 (process_message_dispatch sample_isalnum sample_json_loads
                    passing_env sample_service (ref "m3") sample_world
                    dotted_repo_message eq_refl eq_refl)).
Defined.

(** What the scenarios leave in the mailbox. *)
Example scenario_labels :
  labelIds <$> mailbox (world_after (process_message sample_isalnum
                 sample_json_loads passing_env sample_service (ref "m1")
                 sample_world)) !! lit "m1"
  = Some {[lit "UNREAD"; lit "CATEGORY_UPDATES"]} ∧
  labelIds <$> mailbox (world_after (process_message sample_isalnum
                 sample_json_loads failing_env sample_service (ref "m1")
                 sample_world)) !! lit "m1"
  = Some {[lit "INBOX"; lit "CATEGORY_UPDATES"]} ∧
  labelIds <$> mailbox (world_after (process_message sample_isalnum
                 sample_json_loads passing_env sample_service (ref "m3")
                 sample_world)) !! lit "m3"
  = Some {[lit "INBOX"; lit "CATEGORY_UPDATES"]}.
Proof. repeat split; vm_compute; reflexivity. Qed.

(** A mailbox service that answers the list query with status 503, and one
    that cannot be reached. *)
Lemma list_error_aborts_run_witness :
  (env_list down_env (trace sample_world) query = inl (HttpError 503) ∧
   process_messages sample_isalnum sample_json_loads down_env sample_service
     sample_world
   = (inr tt, record_call (CallList query) sample_world,
      [(ERROR, Msg_process_error (HttpError 503))])) ∧
  (env_list offline_env (trace sample_world) query
   = inl (OtherException (lit "TimeoutError")) ∧
   process_messages sample_isalnum sample_json_loads offline_env sample_service
     sample_world
   = (inl (OtherException (lit "TimeoutError")),
      record_call (CallList query) sample_world, [])).
Proof.
  split; (split; [reflexivity|]).
  - exact (list_error_aborts_run sample_isalnum sample_json_loads down_env
             sample_service sample_world (HttpError 503) eq_refl).
  - exact (list_error_aborts_run sample_isalnum sample_json_loads offline_env
             sample_service sample_world
             (OtherException (lit "TimeoutError")) eq_refl).
Defined.

(** C5, as stated, fails: the list query times out, which is a transport
    error and no [HttpError]; nothing is logged and the exception leaves
    [process_messages]. *)
Lemma list_timeout_is_not_caught :
  env_list offline_env (trace sample_world) query
  = inl (OtherException (lit "TimeoutError")) ∧
  is_HttpError (OtherException (lit "TimeoutError")) = false ∧
  outcome (process_messages sample_isalnum sample_json_loads offline_env
             sample_service sample_world)
  = inl (OtherException (lit "TimeoutError")) ∧
  logged (process_messages sample_isalnum sample_json_loads offline_env
            sample_service sample_world)
  = [].
Proof. repeat split; vm_compute; reflexivity. Qed.

(** Archiving, and marking read, the message [m1] twice. *)
Lemma mutations_idempotent_witness :
  env_modify_fault passing_env (trace sample_world) (lit "m1")
    (remove_label "INBOX") = None ∧
  env_modify_fault passing_env (trace sample_world) (lit "m1")
    (remove_label "UNREAD") = None ∧
  mailbox (world_after (archive_message passing_env sample_service (lit "m1")
             (world_after (archive_message passing_env sample_service
                             (lit "m1") sample_world))))
  = mailbox (world_after (archive_message passing_env sample_service
                            (lit "m1") sample_world)) ∧
  mailbox (world_after (mark_as_read passing_env sample_service (lit "m1")
             (world_after (mark_as_read passing_env sample_service
                             (lit "m1") sample_world))))
  = mailbox (world_after (mark_as_read passing_env sample_service
                            (lit "m1") sample_world)).
Proof.
  split; [reflexivity|]. split; [reflexivity|].
  destruct (mutations_idempotent passing_env sample_service (lit "m1")
              sample_world eq_refl eq_refl) as (Ha & Hr & _).
  split; [exact Ha | exact Hr].
Defined.

(** A mailbox service that answers every [modify] request with status 500. *)
Lemma mutation_error_logged_not_retried_witness :
  env_get_fault broken_env (trace sample_world) (lit "m1") = None ∧
  mailbox sample_world !! lit "m1" = Some failed_run_message ∧
  (∀ tr body, env_modify_fault broken_env tr (lit "m1") body
              = Some (HttpError 500)) ∧
  mark_as_read broken_env sample_service (lit "m1") sample_world
  = (inr tt,
     record_call (CallModify (lit "m1") (remove_label "UNREAD")) sample_world,
     [(ERROR, Msg_mark_read_error (HttpError 500))]) ∧
  archive_message broken_env sample_service (lit "m1") sample_world
  = (inr tt,
     record_call (CallModify (lit "m1") (remove_label "INBOX")) sample_world,
     [(ERROR, Msg_archive_error (HttpError 500))]).
Proof.
  split; [reflexivity|]. split; [reflexivity|]. split; [reflexivity|].
  destruct (mutation_error_logged_not_retried sample_isalnum sample_json_loads
              broken_env sample_service (ref "m1") [ref "m3"] sample_world
              failed_run_message 500 eq_refl eq_refl (λ _ _, eq_refl))
    as (Hr & Ha & _).
  split; [exact (Hr sample_world) | exact (Ha sample_world)].
Defined.

(** With every [modify] request failing, both messages of the batch are
    still fetched and each gets its one request. *)
Example failed_mutations_do_not_stop_the_loop :
  process_messages sample_isalnum sample_json_loads broken_env sample_service
    sample_world
  = (inr tt,
     {| mailbox := mailbox sample_world;
        trace := [CallList query;
                  CallGet (lit "m1");
                  CallSubprocess (gh_argv (lit "iberi22/domus-otec") (lit "CI"));
                  CallModify (lit "m1") (remove_label "INBOX");
                  CallGet (lit "m3");
                  CallModify (lit "m3") (remove_label "UNREAD")] |},
     [(INFO, Msg_found 2);
      (INFO, Msg_processing (lit "[iberi22/domus-otec] Run failed: CI - main (c33f718)"));
      (INFO, Msg_detected (lit "iberi22/domus-otec") (lit "CI"));
      (INFO, Msg_already_passing (lit "CI"));
      (ERROR, Msg_archive_error (HttpError 500));
      (INFO, Msg_processing (lit "[owner/repo.js] Run failed: CI - main (sha)"));
      (INFO, Msg_no_structured_data);
      (ERROR, Msg_mark_read_error (HttpError 500))]).
Proof. vm_compute. reflexivity. Qed.

(** A batch of three whose second message cannot be fetched: the first is
    archived, the third is never looked at. *)
Lemma get_error_stops_batch_witness :
  env_list gap_env (trace sample_world) query
  = inr {| messages := Some (ref <$> ["m1"; "m2"; "m3"]) |} ∧
  for_each [ref "m1"]
    (process_message sample_isalnum sample_json_loads gap_env sample_service)
    (record_call (CallList query) sample_world)
  = (inr tt, after_first_round, first_round_log) ∧
  outcome (api_get gap_env (lit "m2") after_first_round) = inl (HttpError 404) ∧
  process_messages sample_isalnum sample_json_loads gap_env sample_service
    sample_world
  = (inr tt, record_call (CallGet (lit "m2")) after_first_round,
     (INFO, Msg_found 3) :: first_round_log
       ++ [(ERROR, Msg_process_error (HttpError 404))]).
Proof.
  assert (H1 : for_each [ref "m1"]
                 (process_message sample_isalnum sample_json_loads gap_env
                    sample_service)
                 (record_call (CallList query) sample_world)
               = (inr tt, after_first_round, first_round_log))
    by (vm_compute; reflexivity).
  assert (H2 : outcome (api_get gap_env (lit "m2") after_first_round)
               = inl (HttpError 404)) by (vm_compute; reflexivity).
  split; [reflexivity|]. split; [exact H1|]. split; [exact H2|].
  exact (get_error_stops_batch sample_isalnum sample_json_loads gap_env
           sample_service sample_world after_first_round
           {| messages := Some (ref <$> ["m1"; "m2"; "m3"]) |}
           [ref "m1"] [ref "m3"] (ref "m2") first_round_log 404
           eq_refl eq_refl H1 H2).
Defined.



(** C2, as stated, fails: this text has no space-hyphen-space anywhere, and
    a record is extracted from it. *)
Lemma parse_github_email_space_hyphen_suffices :
  (∀ pre post, no_space_after_hyphen ≠ pre ++ lit " - " ++ post) ∧
  outcome (parse_github_email sample_isalnum no_space_after_hyphen []
             sample_world)
  = inr (Some {| i_type := lit "github_action_failure";
                 i_repo := lit "a/b";
                 i_workflow := lit "CI";
                 i_snippet := no_space_after_hyphen |}).
Proof.
  split; [|reflexivity].
  intros pre post H. unfold no_space_after_hyphen, lit in H. simpl in H.
  repeat (destruct pre as [|? pre]; [discriminate H|injection H as _ H]).
  destruct pre; discriminate H.
Qed.

(** A workflow name that itself holds the terminator is cut at its first
    occurrence. *)
Example workflow_is_the_shortest :
  outcome (parse_github_email sample_isalnum
             (lit "[a/b] Run failed: Build - Test - main (sha)") [] sample_world)
  = inr (Some {| i_type := lit "github_action_failure";
                 i_repo := lit "a/b";
                 i_workflow := lit "Build";
                 i_snippet := lit "[a/b] Run failed: Build - Test - main (sha)" |}).
Proof. reflexivity. Qed.

(** A run with [--dry-run] archives the message of the fixed workflow and
    marks the other read, as a run without the flag does. *)
Example dry_run_still_mutates :
  let dry := main sample_isalnum sample_json_loads passing_env
               {| max_emails := 50; dry_run := true |} sample_world in
  trace (world_after dry)
  = [CallPathExists TOKEN_FILE; CallLoadToken; CallBuild sample_credentials;
     CallList query;
     CallGet (lit "m1");
     CallSubprocess (gh_argv (lit "iberi22/domus-otec") (lit "CI"));
     CallModify (lit "m1") (remove_label "INBOX");
     CallGet (lit "m3");
     CallModify (lit "m3") (remove_label "UNREAD")] ∧
  labelIds <$> mailbox (world_after dry) !! lit "m1"
  = Some {[lit "UNREAD"; lit "CATEGORY_UPDATES"]} ∧
  labelIds <$> mailbox (world_after dry) !! lit "m3"
  = Some {[lit "INBOX"; lit "CATEGORY_UPDATES"]}.
Proof. repeat split; vm_compute; reflexivity. Qed.

(** The status check on outputs of [gh]: passing, failing, no run, exit
    status 1, output that is not JSON. *)
Example check_workflow_status_samples :
  let check env :=
    outcome (check_workflow_status sample_json_loads env (lit "a/b") (lit "CI")
               sample_world) in
  check passing_env = inr true ∧
  check failing_env = inr false ∧
  check (sample_env (listing []) None 0 (lit "[]")) = inr false ∧
  check (sample_env (listing []) None 1 (gh_output "success")) = inr false ∧
  check (sample_env (listing []) None 0 (lit "not json")) = inr false.
Proof. repeat split; vm_compute; reflexivity. Qed.

(** ** The further statements at work *)

(** An expired token: refreshed, written, used. *)
Lemma token_written_only_when_fresh_witness :
  calls_since sample_world
    (world_after (get_gmail_service stale_token_env sample_world))
  = [CallPathExists TOKEN_FILE; CallLoadToken; CallRefresh stale_credentials]
      ++ CallWriteToken sample_credentials :: [CallBuild sample_credentials] ∧
  ((∃ b0 c0,
      [CallPathExists TOKEN_FILE; CallLoadToken; CallRefresh stale_credentials]
      = b0 ++ [CallRefresh c0] ∧
      env_refresh stale_token_env (trace sample_world ++ b0) c0
      = inr sample_credentials)
   ∨ (∃ b0,
        [CallPathExists TOKEN_FILE; CallLoadToken; CallRefresh stale_credentials]
        = b0 ++ [CallOAuthFlow] ∧
        env_oauth_flow stale_token_env (trace sample_world ++ b0)
        = inr sample_credentials)).
Proof.
  split; [reflexivity|].
  exact (token_written_only_when_fresh stale_token_env sample_world
           [CallPathExists TOKEN_FILE; CallLoadToken; CallRefresh stale_credentials]
           [CallBuild sample_credentials] sample_credentials eq_refl).
Defined.

(** Neither file: the run ends after the two existence checks. *)
Lemma main_without_service_witness :
  outcome (get_gmail_service no_files_env sample_world) = inr None ∧
  outcome (main sample_isalnum sample_json_loads no_files_env
             {| max_emails := 50; dry_run := false |} sample_world) = inr tt ∧
  mailbox (world_after (main sample_isalnum sample_json_loads no_files_env
                          {| max_emails := 50; dry_run := false |} sample_world))
  = mailbox sample_world.
Proof.
  split; [reflexivity|].
  destruct (main_without_service sample_isalnum sample_json_loads no_files_env
              {| max_emails := 50; dry_run := false |} sample_world eq_refl)
    as (Ho & _ & Hm & _).
  split; [exact Ho | exact Hm].
Defined.

Example run_without_credentials :
  calls_since sample_world
    (world_after (main sample_isalnum sample_json_loads no_files_env
                    {| max_emails := 50; dry_run := false |} sample_world))
  = [CallPathExists TOKEN_FILE; CallPathExists CREDENTIALS_FILE].
Proof. reflexivity. Qed.

(** The two messages of the sample listing. *)
Lemma every_listed_message_is_processed_witness :
  mailbox_answers passing_env ∧
  env_list passing_env (trace sample_world) query = listing ["m1"; "m3"] ∧
  (∀ r, r ∈ [ref "m1"; ref "m3"] → is_Some (mailbox sample_world !! id r)) ∧
  outcome (process_messages sample_isalnum sample_json_loads passing_env
             sample_service sample_world) = inr tt ∧
  fetched (calls_since sample_world
             (world_after (process_messages sample_isalnum sample_json_loads
                             passing_env sample_service sample_world)))
  = [lit "m1"; lit "m3"] ∧
  mutated (calls_since sample_world
             (world_after (process_messages sample_isalnum sample_json_loads
                             passing_env sample_service sample_world)))
  = [lit "m1"; lit "m3"].
Proof.
  assert (Hok : mailbox_answers passing_env).
  { split; [reflexivity|]. intros tr i b. left. reflexivity. }
  assert (Hin : ∀ r, r ∈ [ref "m1"; ref "m3"] →
                     is_Some (mailbox sample_world !! id r)).
  { intros r Hr. apply elem_of_cons in Hr as [->|Hr]; [by eexists|].
    apply elem_of_cons in Hr as [->|Hr]; [by eexists|].
    by apply elem_of_nil in Hr. }
  split; [exact Hok|]. split; [reflexivity|]. split; [exact Hin|].
  exact (every_listed_message_is_processed sample_isalnum sample_json_loads
           passing_env sample_service sample_world
           {| messages := Some [ref "m1"; ref "m3"] |} Hok eq_refl Hin).
Defined.

(** One message listed twice: two identical [gh] runs. *)
Lemma status_is_checked_per_message_witness :
  mailbox_answers twice_env ∧
  env_list twice_env (trace sample_world) query = listing ["m1"; "m1"] ∧
  (∀ r, r ∈ [ref "m1"; ref "m1"] → is_Some (mailbox sample_world !! id r)) ∧
  checked (calls_since sample_world
             (world_after (process_messages sample_isalnum sample_json_loads
                             twice_env sample_service sample_world)))
  = [gh_argv (lit "iberi22/domus-otec") (lit "CI");
     gh_argv (lit "iberi22/domus-otec") (lit "CI")].
Proof.
  assert (Hok : mailbox_answers twice_env).
  { split; [reflexivity|]. intros tr i b. left. reflexivity. }
  assert (Hin : ∀ r, r ∈ [ref "m1"; ref "m1"] →
                     is_Some (mailbox sample_world !! id r)).
  { intros r Hr. apply elem_of_cons in Hr as [->|Hr]; [by eexists|].
    apply elem_of_cons in Hr as [->|Hr]; [by eexists|].
    by apply elem_of_nil in Hr. }
  split; [exact Hok|]. split; [reflexivity|]. split; [exact Hin|].
  exact (status_is_checked_per_message sample_isalnum sample_json_loads
           twice_env sample_service sample_world
           {| messages := Some [ref "m1"; ref "m1"] |} Hok eq_refl Hin).
Defined.

(** A list response without the [messages] key. *)
Lemma nothing_listed_witness :
  env_list empty_env (trace sample_world) query = inr {| messages := None |} ∧
  default [] (messages {| messages := None |}) = [] ∧
  process_messages sample_isalnum sample_json_loads empty_env sample_service
    sample_world
  = (inr tt, record_call (CallList query) sample_world,
     [(INFO, Msg_no_new_failures)]).
Proof.
  split; [reflexivity|]. split; [reflexivity|].
  exact (nothing_listed sample_isalnum sample_json_loads empty_env
           sample_service sample_world {| messages := None |} eq_refl eq_refl).
Defined.

(** A reply prefix in front of the subject. *)
Lemma text_before_first_bracket_is_ignored_witness :
  (chr "[" ∉ lit "Re: ") ∧
  ∃ r1 r2,
    outcome (parse_github_email sample_isalnum
               (lit "Re: " ++ lit "[a/b] Run failed: CI - main (sha)") []
               sample_world) = inr r1 ∧
    outcome (parse_github_email sample_isalnum
               (lit "[a/b] Run failed: CI - main (sha)") [] sample_world)
    = inr r2 ∧
    names r1 = names r2 ∧
    names r2 = Some (lit "a/b", lit "CI").
Proof.
  assert (Hpre : chr "[" ∉ lit "Re: ") by not_in_list.
  split; [exact Hpre|].
  destruct (text_before_first_bracket_is_ignored sample_isalnum (lit "Re: ")
              (lit "[a/b] Run failed: CI - main (sha)") [] sample_world Hpre)
    as (r1 & r2 & H1 & H2 & Hn & _).
  exists r1, r2. split; [exact H1|]. split; [exact H2|]. split; [exact Hn|].
  injection H2 as <-. reflexivity.
Defined.

(** A header named [subject], in lower case, is not the subject. *)
Lemma no_subject_header_leaves_the_snippet_witness :
  first_header_value (lit "Subject")
    (default [] (headers (default {| headers := None |}
                            (payload (resource no_subject_message)))))
  = None ∧
  text_of (resource no_subject_message)
  = lit "Sin Asunto " ++ lit "[a/b] Run failed: CI - main (sha)" ∧
  record_of sample_isalnum no_subject_message = Some (lit "a/b", lit "CI").
Proof.
  split; [reflexivity|].
  destruct (no_subject_header_leaves_the_snippet sample_isalnum
              no_subject_message eq_refl) as [Ht Hr].
  split; [exact Ht|]. rewrite Hr. reflexivity.
Defined.

(** A second failure notice after the first. *)
Lemma text_after_the_match_is_ignored_witness :
  outcome (parse_github_email sample_isalnum
             (lit "[a/b] Run failed: CI - main") [] sample_world)
  = inr (Some {| i_type := lit "github_action_failure";
                 i_repo := lit "a/b";
                 i_workflow := lit "CI";
                 i_snippet := lit "[a/b] Run failed: CI - main" |}) ∧
  outcome (parse_github_email sample_isalnum
             (lit "[a/b] Run failed: CI - main" ++ lit " [c/d] Run failed: X - y")
             [] sample_world)
  = inr (Some {| i_type := lit "github_action_failure";
                 i_repo := lit "a/b";
                 i_workflow := lit "CI";
                 i_snippet := lit "[a/b] Run failed: CI - main"
                              ++ lit " [c/d] Run failed: X - y" |}).
Proof.
  split; [reflexivity|].
  exact (text_after_the_match_is_ignored sample_isalnum
           (lit "[a/b] Run failed: CI - main") (lit " [c/d] Run failed: X - y")
           [] sample_world _ eq_refl).
Defined.

(** The list query times out. *)
Lemma other_exception_ends_the_run_witness :
  outcome (get_gmail_service offline_env sample_world) = inr (Some sample_service) ∧
  env_list offline_env
    (trace (world_after (get_gmail_service offline_env sample_world))) query
  = inl (OtherException (lit "TimeoutError")) ∧
  outcome (main sample_isalnum sample_json_loads offline_env
             {| max_emails := 50; dry_run := false |} sample_world)
  = inl (OtherException (lit "TimeoutError")).
Proof.
  split; [reflexivity|]. split; [reflexivity|].
  exact (proj1 (other_exception_ends_the_run sample_isalnum sample_json_loads
                  offline_env {| max_emails := 50; dry_run := false |}
                  sample_world sample_service (lit "TimeoutError")
                  eq_refl eq_refl)).
Defined.

(** Two [Subject] headers after one in lower case. *)
Lemma first_subject_header_counts_witness :
  Forall (λ h', h_name h' ≠ lit "Subject")
    [ {| h_name := lit "subject"; h_value := lit "lower case" |} ] ∧
  first_header_value (lit "Subject") two_subjects = Some (lit "first").
Proof.
  assert (Hb : Forall (λ h', h_name h' ≠ lit "Subject")
                 [ {| h_name := lit "subject"; h_value := lit "lower case" |} ]).
  { constructor; [discriminate|constructor]. }
  split; [exact Hb|].
  exact (first_subject_header_counts
           [ {| h_name := lit "subject"; h_value := lit "lower case" |} ]
           [ {| h_name := lit "Subject"; h_value := lit "second" |} ]
           {| h_name := lit "Subject"; h_value := lit "first" |}
           (lit "Subject") Hb eq_refl).
Defined.
